(** * A functional model of the set-associative cache simulator

    The development follows [riscv/cachesim_addr.cc] (the decomposed
    address: tag, set index, valid and dirty flags) and
    [riscv/cachesim.cc] (the cache engine: tag array, look-up,
    victimisation, [access] and [clean_invalidate], chaining to the miss
    handler).

    Machine integers are integers of [Z] with the wrap-around of their
    width written out.  Indexing a [std::vector] outside its bounds and
    calling through a null policy pointer have no defined result in the
    source; the model returns a fault there. *)

From Stdlib Require Import ZArith Lia Bool Ascii.
From stdpp Require Import base numbers list strings.

Local Open Scope Z_scope.

(** ** Machine integers *)

(** Conversion to an unsigned integer type of [w] bits. *)
Definition wrap (w x : Z) : Z := x mod 2 ^ w.

(** Conversion to [int] (two's complement, 32 bits). *)
Definition to_int (x : Z) : Z := (x + 2 ^ 31) mod 2 ^ 32 - 2 ^ 31.

(** [(uint32_t)std::log2(x)] for a 32-bit [x]: the binary logarithm
    rounded down.  The source's conversion has no defined value at
    [x = 0] (the logarithm is minus infinity); [Z.log2 0] is [0]. *)
Definition ilog2 (x : Z) : Z := Z.log2 x.

Definition is_pow2 (x : Z) : Prop := exists k, 0 <= k /\ x = 2 ^ k.

(** ** The decomposed address ([cachesim_addr.cc]) *)

Record cache_sim_addr_t := mk_addr {
  valid : bool;
  dirty : bool;
  tag : Z;
  idx : Z
}.

Definition set_valid (a : cache_sim_addr_t) : cache_sim_addr_t :=
  mk_addr true (dirty a) (tag a) (idx a).
Definition is_valid (a : cache_sim_addr_t) : bool := valid a.
Definition set_invalid (a : cache_sim_addr_t) : cache_sim_addr_t :=
  mk_addr false (dirty a) (tag a) (idx a).
Definition set_dirty (a : cache_sim_addr_t) : cache_sim_addr_t :=
  mk_addr (valid a) true (tag a) (idx a).
Definition is_dirty (a : cache_sim_addr_t) : bool := dirty a.
Definition set_clean (a : cache_sim_addr_t) : cache_sim_addr_t :=
  mk_addr (valid a) false (tag a) (idx a).

(** The default constructor: the state of every slot of a new tag array. *)
Definition addr_default : cache_sim_addr_t := mk_addr false false 0 0.

(** [operator==]: both valid and the tags agree. *)
Definition addr_eq (a b : cache_sim_addr_t) : bool :=
  (valid a && valid b) && (tag a =? tag b).

(** [operator<]: both valid, and the pair (tag, idx) is smaller. *)
Definition addr_lt (a b : cache_sim_addr_t) : bool :=
  (valid a && valid b) &&
  ((tag a <? tag b) || ((tag a =? tag b) && (idx a <? idx b))).

(** ** Results of operations *)

(** What the source leaves undefined: an index outside a vector
    ([OutOfBounds]) and a call through a null [policy] pointer
    ([NullPolicy]).  [Unfinished] marks a loop model that ran out of
    iterations; [clean_loop_finishes] shows that it does not occur. *)
Inductive fault := OutOfBounds | NullPolicy | Unfinished.

Inductive outcome (A : Type) :=
  | Done (a : A)
  | Fault (f : fault).
Arguments Done {A} a.
Arguments Fault {A} f.

#[global] Instance outcome_ret : MRet outcome := fun A a => Done a.
#[global] Instance outcome_bind : MBind outcome := fun A B k m =>
  match m with
  | Done a => k a
  | Fault f => Fault f
  end.

(** [v[i]] on a [std::vector]; a negative [i] converts to a huge
    [size_t] and is outside every vector. *)
Definition vec_at {A} (v : list A) (i : Z) : outcome A :=
  if i <? 0 then Fault OutOfBounds
  else match v !! Z.to_nat i with
       | Some x => Done x
       | None => Fault OutOfBounds
       end.

(** ** Collaborators of the engine *)

(** The calls made on [perf_counter]: [access(store, bytes)],
    [miss(store)], [writeback()] and [clean()].  Its class is not part
    of the two files modelled here; the engine keeps the calls, in
    order. *)
Inductive perf_event :=
  | PerfAccess (store : bool) (bytes : Z)
  | PerfMiss (store : bool)
  | PerfWriteback
  | PerfClean.

(** The five classes [create_eviction_policy] instantiates. *)
Inductive policy_kind := Lfsr | Lru | Fifo | Lip | Bip.

(** The interface [eviction_policy_t]: the constructor from
    [(sets, ways)], [next(idx)] (which may advance the state, and
    returns the way to evict), [insert(idx, way)] and
    [update(addr, way)].  The five classes are not part of the two
    files modelled here. *)
Class eviction_policy_t (P : Type) := {
  policy_new : policy_kind -> Z -> Z -> P;
  policy_next : P -> Z -> Z * P;
  policy_insert : P -> Z -> Z -> P;
  policy_update : P -> cache_sim_addr_t -> Z -> P
}.

(** The contract of a policy: some invariant of its state, set up by the
    constructor and kept by the three calls, under which [next] answers
    with a way in [[0, ways)]. *)
Class eviction_policy_ok (P : Type) `{eviction_policy_t P} := {
  policy_inv : Z -> Z -> P -> Prop;
  policy_new_inv k sets ways :
    0 < sets -> 0 < ways -> policy_inv sets ways (policy_new k sets ways);
  policy_next_range sets ways p i :
    policy_inv sets ways p -> 0 <= i < sets ->
    0 <= (policy_next p i).1 < ways;
  policy_next_inv sets ways p i :
    policy_inv sets ways p -> 0 <= i < sets ->
    policy_inv sets ways (policy_next p i).2;
  policy_insert_inv sets ways p i w :
    policy_inv sets ways p -> 0 <= i < sets -> 0 <= w < ways ->
    policy_inv sets ways (policy_insert p i w);
  policy_update_inv sets ways p a w :
    policy_inv sets ways p -> 0 <= idx a < sets -> 0 <= w < ways ->
    policy_inv sets ways (policy_update p a w)
}.

(** A policy to run the model with: one replacement pointer for the
    whole cache, advanced on every insertion. *)
Record round_robin := mk_rr { rr_ways : Z; rr_ptr : Z }.

#[global] Instance round_robin_policy : eviction_policy_t round_robin := {
  policy_new _ _ ways := mk_rr ways 0;
  policy_next p _ := (rr_ptr p mod rr_ways p, p);
  policy_insert p _ w := mk_rr (rr_ways p) (w + 1);
  policy_update p _ _ := p
}.

#[global, refine] Instance round_robin_ok : eviction_policy_ok round_robin :=
  {| policy_inv := fun _ ways p => rr_ways p = ways /\ 0 < ways |}.
Proof.
  - intros k sets ways Hs Hw. cbn. lia.
  - intros sets ways p i [Hp Hw] Hi. cbn. rewrite Hp.
    apply Z.mod_pos_bound. lia.
  - intros sets ways p i Hp Hi. exact Hp.
  - intros sets ways p i w Hp Hi Hw. exact Hp.
  - intros sets ways p a w Hp Hi Hw. exact Hp.
Defined.

(** ** Strings of the configuration *)

(** [strchr(s, c)] for a character [c] other than NUL: the suffix of
    [s] that starts at the first [c], if there is one. *)
Fixpoint strchr (s : string) (c : ascii) : option string :=
  match s with
  | EmptyString => None
  | String a s' => if Ascii.eqb a c then Some s else strchr s' c
  end.

(** [p++] on a pointer to a character of the string. *)
Definition str_next (s : string) : string :=
  match s with
  | EmptyString => EmptyString
  | String _ s' => s'
  end.

(** [std::string(first, last)] for two pointers into one string: the
    characters of [first] before [last]. *)
Fixpoint str_take (n : nat) (s : string) : string :=
  match n, s with
  | S n', String a s' => String a (str_take n' s')
  | _, _ => EmptyString
  end.

Definition str_between (first last : string) : string :=
  str_take (String.length first - String.length last)%nat first.

Definition is_space (a : ascii) : bool :=
  let n := nat_of_ascii a in
  ((n =? 32) || ((9 <=? n) && (n <=? 13)))%nat.

Fixpoint skip_spaces (s : string) : string :=
  match s with
  | String a s' => if is_space a then skip_spaces s' else s
  | EmptyString => s
  end.

Fixpoint atoi_digits (s : string) (acc : Z) : Z :=
  match s with
  | String a s' =>
      let n := nat_of_ascii a in
      if ((48 <=? n) && (n <=? 57))%nat
      then atoi_digits s' (10 * acc + (Z.of_nat n - 48))
      else acc
  | EmptyString => acc
  end.

(** [strtol(s, NULL, 10)]: white space, an optional sign, decimal
    digits; a number outside the range of [long] (64 bits) is replaced
    by the nearest [long]. *)
Definition strtol (s : string) : Z :=
  let v := match skip_spaces s with
           | String "-" s' => - atoi_digits s' 0
           | String "+" s' => atoi_digits s' 0
           | s' => atoi_digits s' 0
           end in
  Z.max (- 2 ^ 63) (Z.min (2 ^ 63 - 1) v).

(** [atoi], which the C library computes as [(int) strtol(s, NULL, 10)]:
    the result is an [int], the low 32 bits of the [long] read as a
    signed number. *)
Definition atoi (s : string) : Z := to_int (strtol s).

(** [policy_is_valid]. *)
Definition policy_is_valid (eviction_policy : string) : bool :=
  String.eqb eviction_policy "lfsr" ||
  String.eqb eviction_policy "lru" ||
  String.eqb eviction_policy "fifo" ||
  String.eqb eviction_policy "lip" ||
  String.eqb eviction_policy "bip".

Section Simulator.

(** The class declaration (the header) gives the types of the fields
    [tag] and [idx]; the model takes their widths in bits as
    parameters.  Both are unsigned integer types. *)
Variables tag_bits idx_bits : Z.

(** The constructor from a raw address, "decompose" in the
    specification.  [addr] is a [uint64_t], [sets] and [linesz] are
    [uint32_t]; the local [stripped] is a [uint32_t]. *)
Definition addr_of_raw (addr sets linesz : Z) : cache_sim_addr_t :=
  let stripped := wrap 32 (Z.shiftr addr (ilog2 linesz)) in
  {| valid := true;
     dirty := false;
     tag := wrap tag_bits (Z.shiftr stripped (ilog2 sets));
     idx := wrap idx_bits (Z.land stripped (wrap 32 (sets - 1))) |}.

(** [next_cacheline]: [if (idx == sets-1) tag++; idx++;]. *)
Definition next_cacheline (a : cache_sim_addr_t) (sets : Z) : cache_sim_addr_t :=
  let tag' := if idx a =? wrap 32 (sets - 1)
              then wrap tag_bits (tag a + 1) else tag a in
  mk_addr (valid a) (dirty a) tag' (wrap idx_bits (idx a + 1)).

(** [to_uint64], "recompose" in the specification.  The first shift is
    computed in the type of [tag], the rest in [uint64_t]; this is the
    arithmetic of fields of 32 to 64 bits. *)
Definition to_uint64 (a : cache_sim_addr_t) (sets linesz : Z) : Z :=
  let addr := wrap tag_bits (Z.shiftl (tag a) (ilog2 sets)) in
  let addr := Z.lor addr (idx a) in
  wrap 64 (Z.shiftl addr (ilog2 linesz)).

(** ** The cache engine ([cachesim.cc]) *)

Context {P : Type} `{!eviction_policy_t P}.

(** The members of [cache_sim_t] that the operations read or write.
    [sets], [ways] and [linesz] are [size_t]; [policy] is a pointer,
    null when [create_eviction_policy] knows no class for the name.  The
    [log] flag only selects diagnostic printing and is left out; the
    miss handler is the rest of a [chain], below. *)
Record cache_sim_t := mk_cache {
  sets : Z;
  ways : Z;
  linesz : Z;
  tags : list (list cache_sim_addr_t);
  perf_counter : list perf_event;
  name : string;
  policy : option P
}.

Definition with_tags (c : cache_sim_t) (t : list (list cache_sim_addr_t)) : cache_sim_t :=
  mk_cache (sets c) (ways c) (linesz c) t (perf_counter c) (name c) (policy c).

Definition with_policy (c : cache_sim_t) (p : P) : cache_sim_t :=
  mk_cache (sets c) (ways c) (linesz c) (tags c) (perf_counter c) (name c) (Some p).

(** One call on [perf_counter]. *)
Definition perf (c : cache_sim_t) (e : perf_event) : cache_sim_t :=
  mk_cache (sets c) (ways c) (linesz c) (tags c) (perf_counter c ++ [e]) (name c) (policy c).

(** *** Construction *)

(** [help()] prints the usage text and ends the process with [exit(1)]:
    no engine is built. *)
Inductive construction :=
  | Usage
  | Engine (c : cache_sim_t).

(** [create_eviction_policy]: the pointer stays null for an unknown name. *)
Definition create_eviction_policy (sets ways : Z) (eviction_policy : string) : option P :=
  if String.eqb eviction_policy "lfsr" then Some (policy_new Lfsr sets ways)
  else if String.eqb eviction_policy "lru" then Some (policy_new Lru sets ways)
  else if String.eqb eviction_policy "fifo" then Some (policy_new Fifo sets ways)
  else if String.eqb eviction_policy "lip" then Some (policy_new Lip sets ways)
  else if String.eqb eviction_policy "bip" then Some (policy_new Bip sets ways)
  else None.

(** [init], on the members [sets], [ways], [linesz] and [name] that the
    constructor has set. *)
Definition init (sets ways linesz : Z) (name eviction_policy : string) : construction :=
  if (sets =? 0) || negb (Z.land sets (sets - 1) =? 0) then Usage
  else if (linesz <? 8) || negb (Z.land linesz (linesz - 1) =? 0) then Usage
  else Engine {|
    sets := sets;
    ways := ways;
    linesz := linesz;
    tags := replicate (Z.to_nat sets) (replicate (Z.to_nat ways) addr_default);
    perf_counter := [];
    name := name;
    policy := create_eviction_policy sets ways eviction_policy |}.

(** The constructor with a policy name. *)
Definition cache_sim_new (sets ways linesz : Z) (name eviction_policy : string) : construction :=
  init sets ways linesz name eviction_policy.

(** The constructor without a policy name. *)
Definition cache_sim_new_lfsr (sets ways linesz : Z) (name : string) : construction :=
  init sets ways linesz name "lfsr".

(** The constructor from a configuration [sets:ways:blocksize:policy].
    The three numbers go from [int] to [size_t]. *)
Definition cache_sim_of_config (config name : string) : construction :=
  match strchr config ":" with
  | None => Usage
  | Some at_wp =>
    let wp := str_next at_wp in
    match strchr wp ":" with
    | None => Usage
    | Some at_bp =>
      let bp := str_next at_bp in
      match strchr bp ":" with
      | None => Usage
      | Some at_policy =>
        let eviction_policy := str_next at_policy in
        if negb (policy_is_valid eviction_policy) then Usage
        else
          let sets := wrap 64 (atoi (str_between config wp)) in
          let ways := wrap 64 (atoi (str_between wp bp)) in
          let linesz := wrap 64 (atoi (str_between bp eviction_policy)) in
          init sets ways linesz name eviction_policy
      end
    end
  end.

(** *** The tag array *)

(** [tags[i][w]], read. *)
Definition tags_at (c : cache_sim_t) (i w : Z) : outcome cache_sim_addr_t :=
  row ← vec_at (tags c) i; vec_at row w.

(** [tags[i][w]] changed in place by [f]. *)
Definition tags_modify (c : cache_sim_t) (i w : Z)
    (f : cache_sim_addr_t -> cache_sim_addr_t) : outcome cache_sim_t :=
  row ← vec_at (tags c) i;
  e ← vec_at row w;
  Done (with_tags c (<[Z.to_nat i := <[Z.to_nat w := f e]> row]> (tags c))).

(** [std::find(begin, end, addr)]: the first slot [e] of the row with
    [e == addr]. *)
Definition find_way (row : list cache_sim_addr_t) (addr : cache_sim_addr_t) : option (nat * cache_sim_addr_t) :=
  list_find (fun e => addr_eq e addr = true) row.

(** [check_tag]: the distance of that slot from the start of the row as
    an [int], or [-1]. *)
Definition check_tag (c : cache_sim_t) (addr : cache_sim_addr_t) : outcome Z :=
  row ← vec_at (tags c) (idx addr);
  Done (match find_way row addr with
        | Some (i, _) => to_int (Z.of_nat i)
        | None => -1
        end).

Definition policy_of (c : cache_sim_t) : outcome P :=
  match policy c with
  | Some p => Done p
  | None => Fault NullPolicy
  end.

(** [victimize]: the policy names a way, the slot there is returned and
    replaced by [addr] marked valid, and the policy is told. *)
Definition victimize (c : cache_sim_t) (addr : cache_sim_addr_t) : outcome (cache_sim_addr_t * cache_sim_t) :=
  p ← policy_of c;
  let '(way, p) := policy_next p (idx addr) in
  let c := with_policy c p in
  victim ← tags_at c (idx addr) way;
  c ← tags_modify c (idx addr) way (fun _ => set_valid addr);
  Done (victim, with_policy c (policy_insert p (idx addr) way)).

(** *** A cache and its miss handlers *)

(** A cache with the caches reached through [miss_handler] below it:
    [chain 0] is the null pointer, [chain (S n)] a cache whose miss
    handler is a [chain n].  Every operation on [chain 0] does nothing,
    which is the source's [if (miss_handler)]. *)
Fixpoint chain (n : nat) : Type :=
  match n with
  | O => unit
  | S m => (cache_sim_t * chain m)%type
  end.

(** [access]. *)
Fixpoint access (n : nat) : chain n -> Z -> Z -> bool -> outcome (chain n) :=
  match n with
  | O => fun h _ _ _ => Done h
  | S m => fun h raw_addr bytes store =>
    let c := perf h.1 (PerfAccess store bytes) in
    let miss_handler := h.2 in
    let sets32 := wrap 32 (sets c) in
    let linesz32 := wrap 32 (linesz c) in
    let addr := addr_of_raw raw_addr sets32 linesz32 in
    hit_way_index ← check_tag c addr;
    if 0 <=? hit_way_index then
      c ← (if store then tags_modify c (idx addr) hit_way_index set_dirty
           else Done c);
      p ← policy_of c;
      Done (with_policy c (policy_update p addr hit_way_index), miss_handler)
    else
      let c := perf c (PerfMiss store) in
      '(victim, c) ← victimize c addr;
      '(c, miss_handler) ←
        (if is_valid victim && is_dirty victim then
           let dirty_addr := to_uint64 victim sets32 linesz32 in
           miss_handler ← access m miss_handler dirty_addr (linesz c) true;
           Done (perf c PerfWriteback, miss_handler)
         else Done (c, miss_handler));
      miss_handler ← access m miss_handler (to_uint64 addr sets32 linesz32) (linesz c) false;
      if store then
        way ← check_tag c addr;
        c ← tags_modify c (idx addr) way set_dirty;
        Done (c, miss_handler)
      else Done (c, miss_handler)
  end.

(** The body of the loop of [clean_invalidate] for one line. *)
Definition clean_line (c : cache_sim_t) (cur_addr : cache_sim_addr_t) (clean inval : bool) : outcome cache_sim_t :=
  hit_way_index ← check_tag c cur_addr;
  if 0 <=? hit_way_index then
    c ← (if clean then
           e ← tags_at c (idx cur_addr) hit_way_index;
           if is_dirty e then
             tags_modify (perf (perf c PerfWriteback) PerfClean)
               (idx cur_addr) hit_way_index set_clean
           else Done c
         else Done c);
    if inval then tags_modify c (idx cur_addr) hit_way_index set_invalid
    else Done c
  else Done c.

(** [while (cur_addr < end_addr) { ...; cur_addr.next_cacheline(sets); }],
    with a bound on the number of iterations. *)
Fixpoint clean_loop (fuel : nat) (c : cache_sim_t) (cur_addr end_addr : cache_sim_addr_t)
    (clean inval : bool) : outcome cache_sim_t :=
  if addr_lt cur_addr end_addr then
    match fuel with
    | O => Fault Unfinished
    | S fuel' =>
      c ← clean_line c cur_addr clean inval;
      clean_loop fuel' c (next_cacheline cur_addr (wrap 32 (sets c))) end_addr clean inval
    end
  else Done c.

(** [clean_invalidate].  A line that is looked up lies in a row of the
    tag array and each iteration moves one row on, so one iteration more
    than there are rows is enough. *)
Fixpoint clean_invalidate (n : nat) : chain n -> Z -> Z -> bool -> bool -> outcome (chain n) :=
  match n with
  | O => fun h _ _ _ _ => Done h
  | S m => fun h addr bytes clean inval =>
    let c := h.1 in
    let sets32 := wrap 32 (sets c) in
    let linesz32 := wrap 32 (linesz c) in
    let cur_addr := addr_of_raw addr sets32 linesz32 in
    let end_addr := addr_of_raw (wrap 64 (addr + bytes)) sets32 linesz32 in
    c ← clean_loop (S (length (tags c))) c cur_addr end_addr clean inval;
    miss_handler ← clean_invalidate m h.2 addr bytes clean inval;
    Done (c, miss_handler)
  end.

(** ** Invariants of the engine *)

(** The geometry the usage text asks for, within the integer types the
    operations convert it to: [sets] and [linesz] are passed on as
    [uint32_t], and a way index is returned as an [int]. *)
Definition valid_geometry (sets ways linesz : Z) : Prop :=
  is_pow2 sets /\ sets < 2 ^ 32 /\
  is_pow2 linesz /\ 8 <= linesz < 2 ^ 32 /\
  1 <= ways < 2 ^ 31.

(** The tag array has [sets] rows of [ways] slots. *)
Definition tags_shape (c : cache_sim_t) : Prop :=
  length (tags c) = Z.to_nat (sets c) /\
  Forall (fun row => length row = Z.to_nat (ways c)) (tags c).

Definition wf_cache `{!eviction_policy_ok P} (c : cache_sim_t) : Prop :=
  valid_geometry (sets c) (ways c) (linesz c) /\
  tags_shape c /\
  exists p, policy c = Some p /\ policy_inv (sets c) (ways c) p.

(** No two valid slots of a row hold the same tag: two slots that
    [operator==] identifies are one slot. *)
Definition no_dup_row (row : list cache_sim_addr_t) : Prop :=
  forall i j ei ej,
    row !! i = Some ei -> row !! j = Some ej ->
    addr_eq ei ej = true -> i = j.

Definition no_dup (c : cache_sim_t) : Prop := Forall no_dup_row (tags c).

Definition good `{!eviction_policy_ok P} (c : cache_sim_t) : Prop :=
  wf_cache c /\ no_dup c.

(** A slot [e'] that is what is left of a slot [e] when flags were
    cleared or [dirty] was set: if it is valid, [e] was, with the same
    tag. *)
Definition fades (e' e : cache_sim_addr_t) : Prop :=
  valid e' = true -> valid e = true /\ tag e' = tag e.

Definition rows_fade (t' t : list (list cache_sim_addr_t)) : Prop :=
  Forall2 (Forall2 fades) t' t.

(** A property of every cache of a chain. *)
Fixpoint all_levels (Q : cache_sim_t -> Prop) (n : nat) : chain n -> Prop :=
  match n with
  | O => fun _ => True
  | S m => fun h => Q h.1 /\ all_levels Q m h.2
  end.

(** A slot [e'] that is a slot [e] with flags cleared: the same tag and
    set index, valid only if [e] was, dirty only if [e] was. *)
Definition loses_flags (e' e : cache_sim_addr_t) : Prop :=
  tag e' = tag e /\ idx e' = idx e /\
  (valid e' = true -> valid e = true) /\
  (dirty e' = true -> dirty e = true).

(** A relation between the caches of two chains, level by level. *)
Fixpoint levels_rel (R : cache_sim_t -> cache_sim_t -> Prop) (n : nat) : chain n -> chain n -> Prop :=
  match n with
  | O => fun _ _ => True
  | S m => fun h h' => R h.1 h'.1 /\ levels_rel R m h.2 h'.2
  end.

(** What a call of [clean_invalidate] may do to a cache [c], giving
    [c']: geometry, name and policy stay, slots only lose flags, and the
    counter grows by pairs of a write-back and a clean, by none when
    [clean] is not asked for. *)
Definition cleared (clean : bool) (c c' : cache_sim_t) : Prop :=
  sets c' = sets c /\ ways c' = ways c /\ linesz c' = linesz c /\
  name c' = name c /\ policy c' = policy c /\
  Forall2 (Forall2 loses_flags) (tags c') (tags c) /\
  exists k : nat,
    perf_counter c' =
      perf_counter c ++ concat (replicate k [PerfWriteback; PerfClean]) /\
    (clean = false -> k = 0%nat).

(** A cache as a constructor leaves it, for a valid geometry and a known
    policy name. *)
Definition fresh (c : cache_sim_t) : Prop :=
  exists sets ways linesz name eviction_policy,
    valid_geometry sets ways linesz /\
    policy_is_valid eviction_policy = true /\
    init sets ways linesz name eviction_policy = Engine c.

(** The states of a chain of new caches after any number of calls of
    [access] and [clean_invalidate] that return. *)
Inductive reachable (n : nat) : chain n -> Prop :=
  | reach_fresh h :
      all_levels fresh n h -> reachable n h
  | reach_access h raw_addr bytes store h' :
      reachable n h -> access n h raw_addr bytes store = Done h' ->
      reachable n h'
  | reach_clean_invalidate h addr bytes clean inval h' :
      reachable n h -> clean_invalidate n h addr bytes clean inval = Done h' ->
      reachable n h'.

(** * Properties *)

(** ** Machine integers *)

Lemma wrap_small w x : 0 <= x < 2 ^ w -> wrap w x = x.
Proof. intros H. unfold wrap. now apply Z.mod_small. Qed.

Lemma wrap_range w x : 0 <= w -> 0 <= wrap w x < 2 ^ w.
Proof. intros H. unfold wrap. apply Z.mod_pos_bound. now apply Z.pow_pos_nonneg. Qed.

(** Whatever the width, converting a number that is not negative gives a
    number between [0] and it. *)
Lemma wrap_le w x : 0 <= x -> 0 <= wrap w x <= x.
Proof.
  intros Hx. unfold wrap. destruct (Z_lt_le_dec w 0) as [Hw|Hw].
  - rewrite Z.pow_neg_r by lia. rewrite Z.mod_0_r. lia.
  - assert (0 < 2 ^ w) by now apply Z.pow_pos_nonneg.
    pose proof (Z.mod_pos_bound x (2 ^ w) ltac:(lia)).
    pose proof (Z.mod_le x (2 ^ w) ltac:(lia) ltac:(lia)). lia.
Qed.

Lemma pow2_le_mono a b : 0 <= a <= b -> 2 ^ a <= 2 ^ b.
Proof. intros H. apply Z.pow_le_mono_r; lia. Qed.

Lemma wrap_small_ge w v x : v <= w -> 0 <= v -> 0 <= x < 2 ^ v -> wrap w x = x.
Proof.
  intros Hvw Hv Hx. apply wrap_small.
  pose proof (pow2_le_mono v w ltac:(lia)). lia.
Qed.

Lemma to_int_small x : - 2 ^ 31 <= x < 2 ^ 31 -> to_int x = x.
Proof. intros H. unfold to_int. rewrite Z.mod_small; lia. Qed.

Lemma ilog2_pow2 k : 0 <= k -> ilog2 (2 ^ k) = k.
Proof. intros H. unfold ilog2. now apply Z.log2_pow2. Qed.

Lemma is_pow2_pos x : is_pow2 x -> 0 < x.
Proof. intros (k & Hk & ->). now apply Z.pow_pos_nonneg. Qed.

(** A power of two below [2 ^ 32] is [2 ^ k] for some [k] below [32]. *)
Lemma is_pow2_below x :
  is_pow2 x -> x < 2 ^ 32 -> exists k, 0 <= k < 32 /\ x = 2 ^ k.
Proof.
  intros (k & Hk & ->) Hlt. exists k. split; [|done].
  split; [done|]. apply (Z.pow_lt_mono_r_iff 2); lia.
Qed.

(** Splitting a number at bit [s] and putting the halves together. *)
Lemma lor_split x s :
  0 <= s ->
  Z.lor (Z.shiftl (Z.shiftr x s) s) (Z.land x (Z.ones s)) = x.
Proof.
  intros Hs. apply Z.bits_inj'. intros n Hn.
  rewrite Z.lor_spec, Z.land_spec.
  destruct (Z_lt_le_dec n s) as [Hlt|Hge].
  - rewrite Z.shiftl_spec_low by done.
    rewrite Z.ones_spec_low by lia. now rewrite andb_true_r.
  - rewrite Z.shiftl_spec by done. rewrite Z.shiftr_spec by lia.
    rewrite Z.ones_spec_high by lia. rewrite andb_false_r, orb_false_r.
    f_equal. lia.
Qed.

(** ** The decomposed address *)

(** The set index of a decomposed address is below [sets], for every
    raw address and every width of the field. *)
Lemma addr_of_raw_idx_range raw s l :
  is_pow2 s -> s < 2 ^ 32 ->
  0 <= idx (addr_of_raw raw (wrap 32 s) l) < s.
Proof.
  intros Hp Hlt. destruct (is_pow2_below s Hp Hlt) as (k & Hk & ->).
  unfold addr_of_raw; cbn [idx].
  assert (0 < 2 ^ k) by (apply Z.pow_pos_nonneg; lia).
  rewrite (wrap_small 32 (2 ^ k)) by lia.
  rewrite (wrap_small 32 (2 ^ k - 1)) by lia.
  replace (2 ^ k - 1) with (Z.ones k) by (rewrite Z.ones_equiv; lia).
  rewrite Z.land_ones by lia.
  set (x := wrap 32 _ mod 2 ^ k).
  assert (0 <= x < 2 ^ k) by (apply Z.mod_pos_bound; lia).
  pose proof (wrap_le idx_bits x ltac:(lia)). lia.
Qed.

Lemma addr_of_raw_valid raw s l : valid (addr_of_raw raw s l) = true.
Proof. reflexivity. Qed.

(** Below [2 ^ 32] lines the decomposition loses nothing: a line-aligned
    address comes back, when the two fields have 32 bits or more. *)
Lemma to_uint64_addr_of_raw_low a s l :
  32 <= tag_bits -> 32 <= idx_bits ->
  is_pow2 s -> s < 2 ^ 32 -> is_pow2 l -> l < 2 ^ 32 ->
  0 <= a < 2 ^ 32 * l -> a mod l = 0 ->
  to_uint64 (addr_of_raw a s l) s l = a.
Proof.
  intros Ht Hi Hs Hs32 Hl Hl32 Ha Hal.
  destruct (is_pow2_below s Hs Hs32) as (ks & Hks & ->).
  destruct (is_pow2_below l Hl Hl32) as (kl & Hkl & ->).
  unfold to_uint64, addr_of_raw; cbn [tag idx].
  rewrite !ilog2_pow2 by lia.
  assert (0 < 2 ^ ks) by (apply Z.pow_pos_nonneg; lia).
  assert (0 < 2 ^ kl) by (apply Z.pow_pos_nonneg; lia).
  rewrite (Z.shiftr_div_pow2 a kl) by lia.
  set (x := a / 2 ^ kl).
  assert (Hx : 0 <= x < 2 ^ 32).
  { subst x. split; [apply Z.div_pos; lia|].
    apply Z.div_lt_upper_bound; lia. }
  assert (Hax : a = x * 2 ^ kl).
  { subst x. rewrite (Z.div_mod a (2 ^ kl)) at 1 by lia. rewrite Hal. lia. }
  rewrite (wrap_small 32 x) by done.
  rewrite (wrap_small 32 (2 ^ ks - 1)) by lia.
  replace (2 ^ ks - 1) with (Z.ones ks) by (rewrite Z.ones_equiv; lia).
  assert (Hhi : 0 <= Z.shiftr x ks < 2 ^ 32).
  { rewrite Z.shiftr_div_pow2 by lia. split; [apply Z.div_pos; lia|].
    apply Z.div_lt_upper_bound; nia. }
  rewrite (wrap_small_ge tag_bits 32 (Z.shiftr x ks)) by (done || lia).
  assert (Hlo : 0 <= Z.land x (Z.ones ks) < 2 ^ 32).
  { rewrite Z.land_ones by lia.
    pose proof (Z.mod_pos_bound x (2 ^ ks) ltac:(lia)).
    pose proof (Z.mod_le x (2 ^ ks) ltac:(lia) ltac:(lia)). lia. }
  rewrite (wrap_small_ge idx_bits 32 (Z.land x (Z.ones ks))) by (done || lia).
  assert (Hsh : 0 <= Z.shiftl (Z.shiftr x ks) ks < 2 ^ 32).
  { rewrite Z.shiftl_mul_pow2, Z.shiftr_div_pow2 by lia.
    pose proof (Z.mul_div_le x (2 ^ ks) ltac:(lia)).
    pose proof (Z.div_pos x (2 ^ ks) ltac:(lia) ltac:(lia)). nia. }
  rewrite (wrap_small_ge tag_bits 32 _) by (done || lia).
  rewrite lor_split by lia.
  rewrite Z.shiftl_mul_pow2 by lia. rewrite <- Hax.
  apply wrap_small. split; [lia|].
  assert (2 ^ kl <= 2 ^ 31) by (apply pow2_le_mono; lia).
  change (2 ^ 64) with (2 ^ 32 * 2 ^ 32). change (2 ^ 31) with 2147483648 in *.
  change (2 ^ 32) with 4294967296 in *. nia.
Qed.

(** C9.  Two decomposed addresses are equal exactly when both are valid
    and their tags agree, and when either of them is invalid neither the
    ordering nor the equality holds; this covers two invalid addresses. *)
Theorem addr_eq_lt_valid (a b : cache_sim_addr_t) :
  (addr_eq a b = true <-> valid a = true /\ valid b = true /\ tag a = tag b) /\
  (valid a = false \/ valid b = false ->
   addr_lt a b = false /\ addr_eq a b = false).
Proof.
  unfold addr_eq, addr_lt. split.
  - rewrite !andb_true_iff, Z.eqb_eq. tauto.
  - intros [-> | ->]; rewrite ?andb_false_r; auto.
Qed.

(** C1, at an address the code does not bring back.  With 64 sets and
    lines of 64 bytes the line-aligned address [2 ^ 38] decomposes to tag
    0 and set 0, because the line number is kept in 32 bits, and
    recomposes to 0; this holds for every width of the two fields. *)
Theorem roundtrip_loses_high_bits :
  2 ^ 38 mod 64 = 0 /\
  addr_of_raw (2 ^ 38) 64 64 = mk_addr true false 0 0 /\
  to_uint64 (addr_of_raw (2 ^ 38) 64 64) 64 64 = 0 /\
  to_uint64 (addr_of_raw (2 ^ 38) 64 64) 64 64 <> 2 ^ 38.
Proof.
  assert (E : addr_of_raw (2 ^ 38) 64 64 = mk_addr true false 0 0).
  { unfold addr_of_raw.
    replace (wrap 32 (Z.shiftr (2 ^ 38) (ilog2 64))) with 0 by reflexivity.
    reflexivity. }
  rewrite E. repeat split. discriminate.
Qed.

(** C4, at the last set.  From set index [sets - 1] the code increments
    the tag and increments the index as well: the result has index
    [sets], not [0], and so lies outside [[0, sets)]. *)
Theorem next_cacheline_last_set (a : cache_sim_addr_t) (s : Z) :
  32 <= idx_bits -> 0 < s < 2 ^ 32 -> idx a = s - 1 ->
  tag (next_cacheline a s) = wrap tag_bits (tag a + 1) /\
  idx (next_cacheline a s) = s.
Proof.
  intros Hw Hs Hi. unfold next_cacheline; cbn [tag idx].
  rewrite (wrap_small 32 (s - 1)) by lia.
  rewrite Hi, Z.eqb_refl. split; [done|].
  replace (s - 1 + 1) with s by lia.
  apply (wrap_small_ge idx_bits 32); lia.
Qed.

(** Below the last set the step is the one the name promises. *)
Lemma next_cacheline_inner (a : cache_sim_addr_t) (s : Z) :
  32 <= idx_bits -> 0 < s < 2 ^ 32 -> 0 <= idx a < s - 1 ->
  next_cacheline a s = mk_addr (valid a) (dirty a) (tag a) (idx a + 1).
Proof.
  intros Hw Hs Hi. unfold next_cacheline.
  rewrite (wrap_small 32 (s - 1)) by lia.
  destruct (Z.eqb_spec (idx a) (s - 1)); [lia|].
  f_equal. apply (wrap_small_ge idx_bits 32); lia.
Qed.

(** ** Results and vectors *)

Lemma bind_Done {A B} (m : outcome A) (k : A -> outcome B) (b : B) :
  m ≫= k = Done b <-> exists a, m = Done a /\ k a = Done b.
Proof.
  destruct m as [a|f]; cbn.
  - split; [eauto|]. now intros (a' & [= <-] & H).
  - split; [discriminate|]. now intros (a' & [=] & _).
Qed.

Lemma bind_assoc_outcome {A B C} (m : outcome A) (f : A -> outcome B) (g : B -> outcome C) :
  (x ← m; y ← f x; g y) = (y ← (x ← m; f x); g y).
Proof. now destruct m. Qed.

Lemma vec_at_Done {A} (v : list A) (i : Z) (x : A) :
  vec_at v i = Done x <-> 0 <= i /\ v !! Z.to_nat i = Some x.
Proof.
  unfold vec_at. destruct (Z.ltb_spec i 0).
  - split; [discriminate|lia].
  - destruct (v !! Z.to_nat i) as [y|]; split.
    + intros [= ->]. auto.
    + now intros [_ [= ->]].
    + discriminate.
    + now intros [_ [=]].
Qed.

Lemma vec_at_in_range {A} (v : list A) (i : Z) :
  0 <= i < Z.of_nat (length v) -> exists x, vec_at v i = Done x.
Proof.
  intros Hi. destruct (lookup_lt_is_Some_2 v (Z.to_nat i)) as [x Hx]; [lia|].
  exists x. apply vec_at_Done. split; [lia|done].
Qed.

Lemma vec_at_Fault {A} (v : list A) (i : Z) (f : fault) :
  vec_at v i = Fault f -> f = OutOfBounds.
Proof.
  unfold vec_at. destruct (i <? 0); [congruence|].
  destruct (v !! Z.to_nat i); congruence.
Qed.

(** ** The tag array *)

Lemma tags_at_Done c i w e :
  tags_at c i w = Done e <->
  exists row, 0 <= i /\ 0 <= w /\
    tags c !! Z.to_nat i = Some row /\ row !! Z.to_nat w = Some e.
Proof.
  unfold tags_at. rewrite bind_Done. split.
  - intros (row & Hr%vec_at_Done & He%vec_at_Done). exists row. tauto.
  - intros (row & Hi & Hw & Hr & He). exists row.
    split; apply vec_at_Done; auto.
Qed.

Lemma tags_modify_Done c i w f c' :
  tags_modify c i w f = Done c' <->
  exists row e, 0 <= i /\ 0 <= w /\
    tags c !! Z.to_nat i = Some row /\ row !! Z.to_nat w = Some e /\
    c' = with_tags c (<[Z.to_nat i := <[Z.to_nat w := f e]> row]> (tags c)).
Proof.
  unfold tags_modify. rewrite bind_Done. split.
  - intros (row & Hr%vec_at_Done & H). apply bind_Done in H as (e & He%vec_at_Done & [= <-]).
    exists row, e. tauto.
  - intros (row & e & Hi & Hw & Hr & He & ->). exists row.
    split; [apply vec_at_Done; auto|].
    apply bind_Done. exists e. split; [apply vec_at_Done; auto|done].
Qed.

Lemma tags_modify_Fault c i w f x :
  tags_modify c i w f = Fault x -> x = OutOfBounds.
Proof.
  unfold tags_modify. destruct (vec_at (tags c) i) as [row|y] eqn:Hr; cbn.
  - destruct (vec_at row w) as [e|z] eqn:He; cbn; [discriminate|].
    intros [= <-]. eauto using vec_at_Fault.
  - intros [= <-]. eauto using vec_at_Fault.
Qed.

Lemma check_tag_Done c a h :
  check_tag c a = Done h <->
  exists row, 0 <= idx a /\ tags c !! Z.to_nat (idx a) = Some row /\
    h = match find_way row a with
        | Some (i, _) => to_int (Z.of_nat i)
        | None => -1
        end.
Proof.
  unfold check_tag. rewrite bind_Done. split.
  - intros (row & Hr%vec_at_Done & [= <-]). exists row. tauto.
  - intros (row & Hi & Hr & ->). exists row. split; [apply vec_at_Done; auto|done].
Qed.

Lemma check_tag_Fault c a x : check_tag c a = Fault x -> x = OutOfBounds.
Proof.
  unfold check_tag. destruct (vec_at (tags c) (idx a)) eqn:Hr; cbn; [discriminate|].
  intros [= <-]. eauto using vec_at_Fault.
Qed.

(** [find_way] finds the first slot that [operator==] accepts. *)
Lemma find_way_Some row a i e :
  find_way row a = Some (i, e) <->
  row !! i = Some e /\ addr_eq e a = true /\
  forall j y, row !! j = Some y -> (j < i)%nat -> addr_eq y a <> true.
Proof. unfold find_way. apply (list_find_Some (fun x => addr_eq x a = true)). Qed.

Lemma find_way_None row a :
  find_way row a = None <-> Forall (fun e => addr_eq e a <> true) row.
Proof. unfold find_way. apply (list_find_None (fun x => addr_eq x a = true)). Qed.

(** In a row without duplicates the slot found is the only match. *)
Lemma find_way_unique row a i e j y :
  no_dup_row row -> find_way row a = Some (i, e) ->
  row !! j = Some y -> addr_eq y a = true -> j = i.
Proof.
  intros Hnd (Hi & He & _)%find_way_Some Hj Hy.
  apply (Hnd j i y e Hj Hi).
  unfold addr_eq in *. rewrite !andb_true_iff, Z.eqb_eq in *.
  intuition congruence.
Qed.

(** What [check_tag] answers on a row of fewer than [2 ^ 31] slots. *)
Lemma check_tag_cases c a :
  tags_shape c -> 0 <= ways c < 2 ^ 31 -> 0 <= idx a < sets c ->
  exists row, tags c !! Z.to_nat (idx a) = Some row /\
    length row = Z.to_nat (ways c) /\
    ((find_way row a = None /\ check_tag c a = Done (-1)) \/
     (exists i e, find_way row a = Some (i, e) /\
        check_tag c a = Done (Z.of_nat i) /\ Z.of_nat i < ways c)).
Proof.
  intros [Hlen Hrows] Hw Hi.
  destruct (lookup_lt_is_Some_2 (tags c) (Z.to_nat (idx a))) as [row Hrow]; [lia|].
  exists row. split; [done|].
  assert (Hl : length row = Z.to_nat (ways c)).
  { rewrite Forall_lookup in Hrows. eauto. }
  split; [done|].
  destruct (find_way row a) as [[i e]|] eqn:Hf.
  - right. exists i, e. split; [done|].
    pose proof Hf as (Hie & _)%find_way_Some.
    apply lookup_lt_Some in Hie.
    split; [|lia]. apply check_tag_Done. exists row.
    split; [lia|]. split; [done|]. rewrite Hf.
    symmetry. apply to_int_small. lia.
  - left. split; [done|]. apply check_tag_Done. exists row.
    split; [lia|]. split; [done|]. now rewrite Hf.
Qed.

(** *** Slots that only lose flags *)

Lemma fades_refl e : fades e e.
Proof. now intros ?. Qed.

Lemma fades_trans e1 e2 e3 : fades e1 e2 -> fades e2 e3 -> fades e1 e3.
Proof. unfold fades. intros H12 H23 H1. destruct (H12 H1) as [H2 ?].
  destruct (H23 H2). split; congruence. Qed.

Lemma row_fade_refl row : Forall2 fades row row.
Proof. apply Forall_Forall2_diag, Forall_forall. intros. apply fades_refl. Qed.

Lemma rows_fade_refl t : rows_fade t t.
Proof. apply Forall_Forall2_diag, Forall_forall. intros. apply row_fade_refl. Qed.

Lemma rows_fade_trans t1 t2 t3 : rows_fade t1 t2 -> rows_fade t2 t3 -> rows_fade t1 t3.
Proof.
  unfold rows_fade. intros H12. revert t3.
  induction H12 as [|r1 r2 t1 t2 Hr Ht IH]; intros t3 H23; inversion H23; subst; constructor.
  - clear -Hr H1. revert H1. generalize y. clear y.
    induction Hr; intros y0 Hy; inversion Hy; subst; constructor; eauto using fades_trans.
  - eauto.
Qed.

Lemma addr_eq_fades e' e a : fades e' e -> addr_eq e' a = true -> addr_eq e a = true.
Proof.
  unfold fades, addr_eq. rewrite !andb_true_iff, !Z.eqb_eq.
  intros H [[Hv Ha] Ht]. destruct (H Hv). intuition congruence.
Qed.

Lemma no_dup_row_fade row' row :
  Forall2 fades row' row -> no_dup_row row -> no_dup_row row'.
Proof.
  intros Hf Hnd i j ei ej Hi Hj Heq.
  destruct (Forall2_lookup_l _ _ _ _ _ Hf Hi) as (fi & Hfi & Hii).
  destruct (Forall2_lookup_l _ _ _ _ _ Hf Hj) as (fj & Hfj & Hjj).
  apply (Hnd i j fi fj Hfi Hfj).
  unfold addr_eq in *. rewrite !andb_true_iff, !Z.eqb_eq in *.
  destruct Heq as [[Hvi Hvj] Ht].
  destruct (Hii Hvi), (Hjj Hvj). intuition congruence.
Qed.

Lemma find_way_None_fade row' row a :
  Forall2 fades row' row -> find_way row a = None -> find_way row' a = None.
Proof.
  rewrite !find_way_None, !Forall_lookup. intros Hf Hn i e' Hi He.
  destruct (Forall2_lookup_l _ _ _ _ _ Hf Hi) as (e & He' & Hfe).
  apply (Hn i e He'). eauto using addr_eq_fades.
Qed.

Lemma insert_fades row w e e' :
  row !! w = Some e -> fades e' e -> Forall2 fades (<[w := e']> row) row.
Proof.
  intros Hw Hf. apply Forall2_same_length_lookup. split.
  - now rewrite length_insert.
  - intros i x y Hx Hy. destruct (decide (i = w)) as [->|Hne].
    + rewrite list_lookup_insert_eq in Hx by eauto using lookup_lt_Some.
      assert (x = e') as -> by congruence.
      assert (y = e) as -> by congruence. done.
    + rewrite list_lookup_insert_ne in Hx by done.
      assert (x = y) as -> by congruence. apply fades_refl.
Qed.

Lemma insert_rows_fade t i row row' :
  t !! i = Some row -> Forall2 fades row' row -> rows_fade (<[i := row']> t) t.
Proof.
  intros Hi Hf. apply Forall2_same_length_lookup. split.
  - now rewrite length_insert.
  - intros j x y Hx Hy. destruct (decide (j = i)) as [->|Hne].
    + rewrite list_lookup_insert_eq in Hx by eauto using lookup_lt_Some.
      assert (x = row') as -> by congruence.
      assert (y = row) as -> by congruence. done.
    + rewrite list_lookup_insert_ne in Hx by done.
      assert (x = y) as -> by congruence. apply row_fade_refl.
Qed.

(** A slot changed by a method that only clears flags or sets [dirty]. *)
Lemma tags_modify_fades c i w f c' :
  (forall e, fades (f e) e) -> tags_modify c i w f = Done c' ->
  rows_fade (tags c') (tags c) /\
  sets c' = sets c /\ ways c' = ways c /\ linesz c' = linesz c /\
  perf_counter c' = perf_counter c /\ policy c' = policy c /\ name c' = name c.
Proof.
  intros Hf (row & e & _ & _ & Hr & He & ->)%tags_modify_Done. cbn.
  split; [|done]. eapply insert_rows_fade; [done|].
  eapply insert_fades; eauto.
Qed.

Lemma set_dirty_fades e : fades (set_dirty e) e.
Proof. now intros ?. Qed.
Lemma set_clean_fades e : fades (set_clean e) e.
Proof. now intros ?. Qed.
Lemma set_invalid_fades e : fades (set_invalid e) e.
Proof. intros H. discriminate H. Qed.

Lemma rows_fade_length t' t : rows_fade t' t -> length t' = length t.
Proof. apply Forall2_length. Qed.

Lemma rows_fade_shape t' t (k : nat) :
  rows_fade t' t -> Forall (fun row => length row = k) t ->
  Forall (fun row => length row = k) t'.
Proof.
  intros Hf. induction Hf as [|r' r t' t Hr Ht IH]; intros Hs; [constructor|].
  inversion Hs; subst. constructor; [|auto].
  now rewrite (Forall2_length _ _ _ Hr).
Qed.

Lemma rows_fade_no_dup t' t :
  rows_fade t' t -> Forall no_dup_row t -> Forall no_dup_row t'.
Proof.
  intros Hf. induction Hf as [|r' r t' t Hr Ht IH]; intros Hs; [constructor|].
  inversion Hs; subst. constructor; eauto using no_dup_row_fade.
Qed.

(** *** Filling and marking a slot *)

Lemma addr_eq_same_tag e a :
  valid e = true -> valid a = true -> tag e = tag a -> addr_eq e a = true.
Proof.
  intros He Ha Ht. unfold addr_eq. rewrite He, Ha, Ht. cbn. apply Z.eqb_refl.
Qed.

Lemma addr_eq_inv e a :
  addr_eq e a = true -> valid e = true /\ valid a = true /\ tag e = tag a.
Proof.
  unfold addr_eq. rewrite !andb_true_iff, Z.eqb_eq. tauto.
Qed.

(** After a miss, the slot that was filled is the one [find_way] finds. *)
Lemma find_way_insert_fresh row a w e :
  find_way row a = None -> valid a = true ->
  (w < length row)%nat -> valid e = true -> tag e = tag a ->
  find_way (<[w := e]> row) a = Some (w, e).
Proof.
  intros Hn Ha Hw He Ht. apply find_way_Some. split; [|split].
  - now apply list_lookup_insert_eq.
  - now apply addr_eq_same_tag.
  - intros j y Hj Hlt. rewrite list_lookup_insert_ne in Hj by lia.
    rewrite find_way_None, Forall_lookup in Hn. eauto.
Qed.

(** Filling a slot after a miss adds no duplicate. *)
Lemma no_dup_row_insert_fresh row a w e :
  no_dup_row row -> find_way row a = None -> valid a = true ->
  tag e = tag a -> no_dup_row (<[w := e]> row).
Proof.
  intros Hnd Hn Ha Ht i j ei ej Hi Hj Heq.
  rewrite find_way_None, Forall_lookup in Hn.
  apply list_lookup_insert_Some in Hi as [(-> & -> & Hil)|(Hiw & Hi)];
    apply list_lookup_insert_Some in Hj as [(-> & -> & Hjl)|(Hjw & Hj)].
  - done.
  - exfalso. apply (Hn j ej Hj).
    apply addr_eq_inv in Heq as (_ & Hv & Htt).
    apply addr_eq_same_tag; [done..|congruence].
  - exfalso. apply (Hn i ei Hi).
    apply addr_eq_inv in Heq as (Hv & _ & Htt).
    apply addr_eq_same_tag; [done..|congruence].
  - eauto.
Qed.

(** Marking the slot that was found dirty leaves it the slot found. *)
Lemma find_way_set_dirty row a i e :
  find_way row a = Some (i, e) ->
  find_way (<[i := set_dirty e]> row) a = Some (i, set_dirty e).
Proof.
  intros (Hi & He & Hfirst)%find_way_Some. apply find_way_Some. split; [|split].
  - apply list_lookup_insert_eq. eauto using lookup_lt_Some.
  - exact He.
  - intros j y Hj Hlt. rewrite list_lookup_insert_ne in Hj by lia. eauto.
Qed.

(** ** Construction *)

Lemma land_pow2_pred k : 0 <= k -> Z.land (2 ^ k) (2 ^ k - 1) = 0.
Proof.
  intros Hk. replace (2 ^ k - 1) with (Z.ones k) by (rewrite Z.ones_equiv; lia).
  rewrite Z.land_ones by lia. apply Z.mod_same.
  assert (0 < 2 ^ k) by now apply Z.pow_pos_nonneg. lia.
Qed.

(** The test of [init], [x & (x-1)], is zero on the powers of two only. *)
Lemma land_pred_is_pow2 x : 0 < x -> Z.land x (x - 1) = 0 -> is_pow2 x.
Proof.
  intros Hx Hl. set (k := Z.log2 x).
  assert (Hk : 0 <= k) by apply Z.log2_nonneg.
  destruct (Z.log2_spec x Hx) as [Hlo Hhi]. fold k in Hlo, Hhi.
  destruct (Z.eq_dec x (2 ^ k)) as [Heq|Hne]; [now exists k|].
  exfalso.
  assert (Hb1 : Z.testbit x k = true) by (apply Z.bit_log2; lia).
  assert (Hb2 : Z.testbit (x - 1) k = true).
  { replace k with (Z.log2 (x - 1)); [apply Z.bit_log2; lia|].
    apply Z.log2_unique; [done|]. replace (Z.succ k) with (k + 1) in * by lia. lia. }
  assert (Hb : Z.testbit (Z.land x (x - 1)) k = true).
  { now rewrite Z.land_spec, Hb1, Hb2. }
  rewrite Hl, Z.bits_0 in Hb. discriminate.
Qed.

(** [init] builds an engine exactly when [sets] is a power of two and
    [linesz] is a power of two that is at least 8; [ways] and the policy
    name play no part. *)
Lemma init_Engine_iff s w l nm pol :
  0 <= s -> 0 <= l ->
  (exists c, init s w l nm pol = Engine c) <-> (is_pow2 s /\ is_pow2 l /\ 8 <= l).
Proof.
  intros Hs Hl. unfold init. split.
  - intros [c Hc].
    destruct (Z.eqb_spec s 0) as [|Hs0]; [discriminate|].
    destruct (Z.eqb_spec (Z.land s (s - 1)) 0) as [Hls|]; [|discriminate].
    destruct (Z.ltb_spec l 8) as [|Hl8]; [discriminate|].
    destruct (Z.eqb_spec (Z.land l (l - 1)) 0) as [Hll|]; [|discriminate].
    split; [|split]; [apply land_pred_is_pow2; lia..|lia].
  - intros ((ks & Hks & ->) & (kl & Hkl & ->) & Hl8).
    assert (0 < 2 ^ ks) by now apply Z.pow_pos_nonneg.
    rewrite !land_pow2_pred by done.
    destruct (Z.eqb_spec (2 ^ ks) 0); [lia|].
    destruct (Z.ltb_spec (2 ^ kl) 8); [lia|]. cbn. eauto.
Qed.

Lemma init_valid s w l nm pol :
  is_pow2 s -> is_pow2 l -> 8 <= l ->
  init s w l nm pol =
  Engine (mk_cache s w l
            (replicate (Z.to_nat s) (replicate (Z.to_nat w) addr_default))
            [] nm (create_eviction_policy s w pol)).
Proof.
  intros (ks & Hks & ->) (kl & Hkl & ->) Hl8. unfold init.
  assert (0 < 2 ^ ks) by now apply Z.pow_pos_nonneg.
  rewrite !land_pow2_pred by done.
  destruct (Z.eqb_spec (2 ^ ks) 0); [lia|].
  destruct (Z.ltb_spec (2 ^ kl) 8); [lia|]. reflexivity.
Qed.

Lemma create_eviction_policy_valid s w pol :
  policy_is_valid pol = true ->
  exists k, create_eviction_policy s w pol = Some (policy_new k s w).
Proof.
  unfold policy_is_valid, create_eviction_policy. intros H.
  destruct (String.eqb pol "lfsr"); [eauto|].
  destruct (String.eqb pol "lru"); [eauto|].
  destruct (String.eqb pol "fifo"); [eauto|].
  destruct (String.eqb pol "lip"); [eauto|].
  destruct (String.eqb pol "bip"); [eauto|]. discriminate.
Qed.

Lemma create_eviction_policy_invalid s w pol :
  policy_is_valid pol = false -> create_eviction_policy s w pol = None.
Proof.
  unfold policy_is_valid, create_eviction_policy. intros H.
  destruct (String.eqb pol "lfsr"); [discriminate|].
  destruct (String.eqb pol "lru"); [discriminate|].
  destruct (String.eqb pol "fifo"); [discriminate|].
  destruct (String.eqb pol "lip"); [discriminate|].
  destruct (String.eqb pol "bip"); [discriminate|]. reflexivity.
Qed.

(** ** One access *)

Context `{!eviction_policy_ok P}.

Lemma perf_sets c e : sets (perf c e) = sets c.
Proof. reflexivity. Qed.
Lemma perf_linesz c e : linesz (perf c e) = linesz c.
Proof. reflexivity. Qed.
Lemma check_tag_perf c e a : check_tag (perf c e) a = check_tag c a.
Proof. reflexivity. Qed.

(** The new caches are well formed, hold no duplicate and no valid slot,
    and have counted nothing. *)
Lemma fresh_good c :
  fresh c ->
  good c /\ perf_counter c = [] /\
  Forall (Forall (fun e => valid e = false)) (tags c).
Proof.
  intros (s & w & l & nm & pol & Hg & Hpol & Hinit).
  destruct Hg as (Hs & Hs32 & Hl & Hl8 & Hw).
  rewrite init_valid in Hinit by (done || lia). injection Hinit as <-.
  pose proof (is_pow2_pos s Hs) as Hspos.
  assert (Hinv : Forall (Forall (fun e => valid e = false))
            (replicate (Z.to_nat s) (replicate (Z.to_nat w) addr_default))).
  { apply Forall_replicate, Forall_replicate. reflexivity. }
  split; [|split; [reflexivity|exact Hinv]].
  split; [split; [|split]|].
  - cbn. unfold valid_geometry. tauto.
  - split; cbn.
    + apply length_replicate.
    + apply Forall_replicate, length_replicate.
  - cbn. destruct (create_eviction_policy_valid s w pol Hpol) as [k ->].
    eexists. split; [done|]. apply policy_new_inv; lia.
  - unfold no_dup. cbn. eapply Forall_impl; [exact Hinv|].
    intros row Hrow i j ei ej Hi Hj Heq.
    rewrite Forall_lookup in Hrow. apply addr_eq_inv in Heq as (Hv & _).
    rewrite (Hrow i ei Hi) in Hv. discriminate.
Qed.

(** A hit: the slot is marked dirty for a store and the policy is told;
    the miss handler is not called and no miss is counted. *)
Lemma access_hit m (c : cache_sim_t) (mh : chain m) raw bytes store w p :
  let addr := addr_of_raw raw (wrap 32 (sets c)) (wrap 32 (linesz c)) in
  check_tag c addr = Done w -> 0 <= w -> policy c = Some p ->
  access (S m) (c, mh) raw bytes store =
    c1 ← (if store
          then tags_modify (perf c (PerfAccess store bytes)) (idx addr) w set_dirty
          else Done (perf c (PerfAccess store bytes)));
    Done (with_policy c1 (policy_update p addr w), mh).
Proof.
  intros addr Hc Hw Hp. cbn [access fst snd].
  rewrite perf_sets, perf_linesz, check_tag_perf. fold addr. rewrite Hc. cbn [mbind outcome_bind].
  destruct (Z.leb_spec 0 w); [|lia].
  destruct store.
  - destruct (tags_modify _ _ _ _) as [c1|f] eqn:Hm; cbn [mbind outcome_bind]; [|done].
    apply tags_modify_fades in Hm as (_ & _ & _ & _ & _ & Hpol & _);
      [|apply set_dirty_fades].
    unfold policy_of. rewrite Hpol. cbn. now rewrite Hp.
  - cbn [mbind outcome_bind]. unfold policy_of. cbn. now rewrite Hp.
Qed.

Lemma addr_of_raw_idx_nonneg raw s l : 0 <= idx (addr_of_raw raw s l).
Proof.
  unfold addr_of_raw; cbn [idx]. apply wrap_le.
  apply Z.land_nonneg. left. unfold wrap.
  destruct (Z.eq_dec (2 ^ 32) 0) as [E|_]; [discriminate E|].
  apply Z.mod_pos_bound. reflexivity.
Qed.

(** A miss.  The policy names a way and the line goes there.  A valid
    and dirty victim is written to the miss handler as a store of one
    line and counted as one write-back, with or without a miss handler;
    then the new line is read from the miss handler as a load of one
    line, also for a store; the new slot is dirty exactly for a store. *)
Lemma access_miss m (c : cache_sim_t) (mh : chain m) raw bytes store p row victim :
  let addr := addr_of_raw raw (wrap 32 (sets c)) (wrap 32 (linesz c)) in
  let way := (policy_next p (idx addr)).1 in
  let p1 := (policy_next p (idx addr)).2 in
  let s32 := wrap 32 (sets c) in
  let l32 := wrap 32 (linesz c) in
  let wb := valid victim && dirty victim in
  policy c = Some p ->
  tags c !! Z.to_nat (idx addr) = Some row ->
  find_way row addr = None ->
  row !! Z.to_nat way = Some victim ->
  0 <= way < 2 ^ 31 ->
  access (S m) (c, mh) raw bytes store =
    mh1 ← (if wb then access m mh (to_uint64 victim s32 l32) (linesz c) true
           else Done mh);
    mh2 ← access m mh1 (to_uint64 addr s32 l32) (linesz c) false;
    Done (mk_cache (sets c) (ways c) (linesz c)
            (<[Z.to_nat (idx addr) :=
                 <[Z.to_nat way := mk_addr true store (tag addr) (idx addr)]> row]>
               (tags c))
            (perf_counter c ++ [PerfAccess store bytes; PerfMiss store]
               ++ (if wb then [PerfWriteback] else []))
            (name c) (Some (policy_insert p1 (idx addr) way)),
          mh2).
Proof.
  intros addr way p1 s32 l32 wb Hp Hrow Hmiss Hvic Hway.
  pose proof (addr_of_raw_idx_nonneg raw (wrap 32 (sets c)) (wrap 32 (linesz c))) as Hi.
  fold addr in Hi.
  assert (Hct : check_tag c addr = Done (-1)).
  { apply check_tag_Done. exists row. now rewrite Hmiss. }
  cbn [access fst snd].
  rewrite perf_sets, perf_linesz, check_tag_perf. fold addr s32 l32.
  rewrite Hct. cbn [mbind outcome_bind].
  change (0 <=? -1) with false. cbv iota.
  unfold victimize, policy_of. cbn [policy perf]. rewrite Hp. cbn [mbind outcome_bind].
  subst way p1. destruct (policy_next p (idx addr)) as [way p1] eqn:Hnext.
  cbn [fst snd] in *.
  match goal with |- context [tags_at ?c' ?i ?w] =>
    assert (tags_at c' i w = Done victim) as ->
      by (apply tags_at_Done; exists row; cbn; auto with lia) end.
  cbn [mbind outcome_bind].
  match goal with |- context [tags_modify ?c' ?i ?w ?f] =>
    assert (tags_modify c' i w f =
            Done (with_tags c' (<[Z.to_nat i := <[Z.to_nat w := f victim]> row]> (tags c')))) as ->
      by (apply tags_modify_Done; exists row, victim; cbn; auto 10 with lia) end.
  cbn [mbind outcome_bind].
  unfold with_tags, with_policy, perf.
  cbn [sets ways linesz tags perf_counter name policy].
  assert (Hlen : (Z.to_nat way < length row)%nat) by eauto using lookup_lt_Some.
  assert (Hleni : (Z.to_nat (idx addr) < length (tags c))%nat) by eauto using lookup_lt_Some.
  (* the look-up and the marking on the store path *)
  assert (Hstore : forall pc pol,
    let c2 := mk_cache (sets c) (ways c) (linesz c)
                (<[Z.to_nat (idx addr) := <[Z.to_nat way := set_valid addr]> row]> (tags c))
                pc (name c) pol in
    (w ← check_tag c2 addr; tags_modify c2 (idx addr) w set_dirty) =
    Done (mk_cache (sets c) (ways c) (linesz c)
            (<[Z.to_nat (idx addr) := <[Z.to_nat way := mk_addr true true (tag addr) (idx addr)]> row]> (tags c))
            pc (name c) pol)).
  { intros pc pol c2.
    assert (Hrow2 : tags c2 !! Z.to_nat (idx addr) = Some (<[Z.to_nat way := set_valid addr]> row)).
    { cbn. now apply list_lookup_insert_eq. }
    assert (check_tag c2 addr = Done way) as ->.
    { apply check_tag_Done. eexists. split; [done|]. split; [exact Hrow2|].
      rewrite (find_way_insert_fresh row addr (Z.to_nat way) (set_valid addr)) by done.
      rewrite Z2Nat.id by lia. symmetry. apply to_int_small. lia. }
    cbn [mbind outcome_bind]. apply tags_modify_Done.
    eexists _, (set_valid addr). split; [done|]. split; [lia|].
    split; [exact Hrow2|]. split; [now apply list_lookup_insert_eq|].
    unfold with_tags. cbn. now rewrite !list_insert_insert_eq. }
  cbv zeta in Hstore.
  unfold is_valid, is_dirty. fold wb.
  assert (Hsv : set_valid addr = mk_addr true false (tag addr) (idx addr)) by reflexivity.
  destruct wb.
  - destruct (access m mh _ _ true) as [mh1|f]; cbn [mbind outcome_bind]; [|done].
    destruct (access m mh1 _ _ false) as [mh2|f]; cbn [mbind outcome_bind]; [|done].
    rewrite <- !app_assoc. cbn [app].
    destruct store.
    + rewrite bind_assoc_outcome, Hstore. reflexivity.
    + rewrite Hsv. reflexivity.
  - cbn [mbind outcome_bind].
    destruct (access m mh _ _ false) as [mh2|f]; cbn [mbind outcome_bind]; [|done].
    rewrite <- !app_assoc. cbn [app].
    destruct store.
    + rewrite bind_assoc_outcome, Hstore. reflexivity.
    + rewrite Hsv. reflexivity.
Qed.

(** ** Every access returns, and keeps the engine well formed *)

Lemma good_intro c c' p' :
  good c ->
  sets c' = sets c -> ways c' = ways c -> linesz c' = linesz c ->
  length (tags c') = length (tags c) ->
  Forall (fun row => length row = Z.to_nat (ways c)) (tags c') ->
  Forall no_dup_row (tags c') ->
  policy c' = Some p' -> policy_inv (sets c) (ways c) p' ->
  good c'.
Proof.
  intros [(Hg & [Hlen Hrows] & _) Hnd] Hs Hw Hl Hlen' Hrows' Hnd' Hp Hinv.
  split; [|exact Hnd']. split; [|split].
  - now rewrite Hs, Hw, Hl.
  - split; [now rewrite Hlen', Hs|now rewrite Hw].
  - exists p'. now rewrite Hs, Hw.
Qed.

Lemma good_fade c c' p' :
  good c -> rows_fade (tags c') (tags c) ->
  sets c' = sets c -> ways c' = ways c -> linesz c' = linesz c ->
  policy c' = Some p' -> policy_inv (sets c) (ways c) p' ->
  good c'.
Proof.
  intros Hgood Hf Hs Hw Hl Hp Hinv.
  pose proof Hgood as [(_ & [_ Hrows] & _) Hnd].
  eapply good_intro; eauto using rows_fade_length, rows_fade_shape, rows_fade_no_dup.
Qed.

(** The parts of the look-up of a decomposed raw address in a well
    formed cache. *)
Lemma wf_lookup c raw :
  wf_cache c ->
  let addr := addr_of_raw raw (wrap 32 (sets c)) (wrap 32 (linesz c)) in
  exists p row,
    policy c = Some p /\ policy_inv (sets c) (ways c) p /\
    0 <= idx addr < sets c /\
    tags c !! Z.to_nat (idx addr) = Some row /\
    length row = Z.to_nat (ways c) /\
    1 <= ways c < 2 ^ 31 /\
    ((find_way row addr = None /\ check_tag c addr = Done (-1)) \/
     (exists i e, find_way row addr = Some (i, e) /\
        check_tag c addr = Done (Z.of_nat i) /\ Z.of_nat i < ways c)).
Proof.
  intros (Hg & Hshape & p & Hp & Hinv) addr.
  destruct Hg as (Hs & Hs32 & _ & _ & Hw).
  assert (Hi : 0 <= idx addr < sets c) by now apply addr_of_raw_idx_range.
  destruct (check_tag_cases c addr Hshape ltac:(lia) Hi) as (row & Hrow & Hlen & Hcases).
  exists p, row. repeat (split; [done || lia|]). done.
Qed.

Lemma good_lookup c raw :
  good c ->
  let addr := addr_of_raw raw (wrap 32 (sets c)) (wrap 32 (linesz c)) in
  exists p row,
    policy c = Some p /\ policy_inv (sets c) (ways c) p /\
    0 <= idx addr < sets c /\
    tags c !! Z.to_nat (idx addr) = Some row /\
    length row = Z.to_nat (ways c) /\ no_dup_row row /\
    1 <= ways c < 2 ^ 31 /\
    ((find_way row addr = None /\ check_tag c addr = Done (-1)) \/
     (exists i e, find_way row addr = Some (i, e) /\
        check_tag c addr = Done (Z.of_nat i) /\ Z.of_nat i < ways c)).
Proof.
  intros [Hwf Hnd] addr.
  destruct (wf_lookup c raw Hwf) as (p & row & Hp & Hinv & Hi & Hrow & Hlen & Hw & Hcases).
  exists p, row. repeat (split; [done|]).
  split; [|done]. unfold no_dup in Hnd. rewrite Forall_lookup in Hnd. eauto.
Qed.

Lemma access_good n (h : chain n) raw bytes store :
  all_levels good n h ->
  exists h', access n h raw bytes store = Done h' /\ all_levels good n h'.
Proof.
  revert h raw bytes store. induction n as [|m IH]; intros h raw bytes store Hh.
  { exists h. now split. }
  destruct h as [c mh]. destruct Hh as [Hc Hmh]. cbn [fst snd] in *.
  destruct (good_lookup c raw Hc) as
    (p & row & Hp & Hinv & Hi & Hrow & Hlen & Hndr & Hw & [[Hmiss Hct]|(i & e & Hfind & Hct & Hiw)]).
  - (* miss *)
    pose proof (policy_next_range _ _ p _ Hinv Hi) as Hway.
    pose proof (policy_next_inv _ _ p _ Hinv Hi) as Hinv1.
    set (addr := addr_of_raw raw (wrap 32 (sets c)) (wrap 32 (linesz c))) in *.
    set (way := (policy_next p (idx addr)).1) in *.
    destruct (lookup_lt_is_Some_2 row (Z.to_nat way)) as [victim Hvic]; [lia|].
    assert (Hway31 : 0 <= way < 2 ^ 31) by lia.
    rewrite (access_miss m c mh raw bytes store p row victim Hp Hrow Hmiss Hvic Hway31).
    fold addr way.
    assert (exists mh1, (if valid victim && dirty victim
              then access m mh (to_uint64 victim (wrap 32 (sets c)) (wrap 32 (linesz c))) (linesz c) true
              else Done mh) = Done mh1 /\ all_levels good m mh1) as (mh1 & -> & Hmh1).
    { destruct (valid victim && dirty victim); [apply IH; done|eauto]. }
    cbn [mbind outcome_bind].
    destruct (IH mh1 (to_uint64 addr (wrap 32 (sets c)) (wrap 32 (linesz c))) (linesz c) false Hmh1)
      as (mh2 & -> & Hmh2).
    cbn [mbind outcome_bind]. eexists. split; [reflexivity|].
    split; [|exact Hmh2]. cbn [fst].
    pose proof Hc as [(_ & [_ Hrows] & _) Hnd].
    eapply good_intro; [exact Hc|reflexivity..| | | |reflexivity|]; cbn.
    + now rewrite length_insert.
    + apply Forall_insert; [done|]. now rewrite length_insert.
    + apply Forall_insert; [done|].
      eapply no_dup_row_insert_fresh; eauto.
    + apply policy_insert_inv; [done..|lia].
  - (* hit *)
    rewrite (access_hit m c mh raw bytes store (Z.of_nat i) p Hct ltac:(lia) Hp).
    set (addr := addr_of_raw raw (wrap 32 (sets c)) (wrap 32 (linesz c))) in *.
    pose proof Hfind as (Hie & _)%find_way_Some.
    assert (Hupd : policy_inv (sets c) (ways c) (policy_update p addr (Z.of_nat i))).
    { apply policy_update_inv; [done..|lia]. }
    destruct store.
    + assert (Hm : tags_modify (perf c (PerfAccess true bytes)) (idx addr) (Z.of_nat i) set_dirty =
                   Done (with_tags (perf c (PerfAccess true bytes))
                           (<[Z.to_nat (idx addr) := <[i := set_dirty e]> row]> (tags c)))).
      { apply tags_modify_Done. exists row, e. rewrite Nat2Z.id.
        repeat split; (done || lia). }
      rewrite Hm. cbn [mbind outcome_bind]. eexists. split; [reflexivity|].
      split; [|exact Hmh]. cbn [fst].
      apply tags_modify_fades in Hm as (Hf & _); [|apply set_dirty_fades].
      eapply good_fade; [exact Hc|exact Hf|reflexivity..|exact Hupd].
    + cbn [mbind outcome_bind]. eexists. split; [reflexivity|].
      split; [|exact Hmh]. cbn [fst].
      eapply good_fade; [exact Hc|apply rows_fade_refl|reflexivity..|exact Hupd].
Qed.

(** C6.  On a miss of [access] in a well formed cache whose miss
    handlers are well formed caches without duplicates (every state
    reached from new caches is such a chain, [reachable_good]): the
    policy's way holds the victim; if the victim is valid and dirty the
    miss handler receives [access(victim address, linesz, true)], which
    returns, and exactly one write-back is counted, whether or not there
    is a miss handler; then the miss handler receives
    [access(line address, linesz, false)], also when the access is a
    store, and this returns too; the access itself returns, with the
    slot of the new line dirty exactly when the access is a store.
    ([access 0], the absent miss handler, does nothing.) *)
Theorem access_miss_forwarding m (c : cache_sim_t) (mh : chain m) raw bytes store hit :
  let addr := addr_of_raw raw (wrap 32 (sets c)) (wrap 32 (linesz c)) in
  let s32 := wrap 32 (sets c) in
  let l32 := wrap 32 (linesz c) in
  wf_cache c -> all_levels good m mh ->
  check_tag c addr = Done hit -> hit < 0 ->
  exists p row victim mh1 mh2,
    let way := (policy_next p (idx addr)).1 in
    let p1 := (policy_next p (idx addr)).2 in
    let wb := valid victim && dirty victim in
    policy c = Some p /\
    tags_at c (idx addr) way = Done victim /\
    tags c !! Z.to_nat (idx addr) = Some row /\
    (if wb then access m mh (to_uint64 victim s32 l32) (linesz c) true
     else Done mh) = Done mh1 /\
    access m mh1 (to_uint64 addr s32 l32) (linesz c) false = Done mh2 /\
    all_levels good m mh2 /\
    access (S m) (c, mh) raw bytes store =
      Done (mk_cache (sets c) (ways c) (linesz c)
              (<[Z.to_nat (idx addr) :=
                   <[Z.to_nat way := mk_addr true store (tag addr) (idx addr)]> row]>
                 (tags c))
              (perf_counter c ++ [PerfAccess store bytes; PerfMiss store]
                 ++ (if wb then [PerfWriteback] else []))
              (name c) (Some (policy_insert p1 (idx addr) way)),
            mh2).
Proof.
  intros addr s32 l32 Hc Hmh Hct Hhit.
  destruct (wf_lookup c raw Hc) as
    (p & row & Hp & Hinv & Hi & Hrow & Hlen & Hw & [[Hmiss _]|(i & e & _ & Hct' & _)]).
  2:{ fold addr in Hct'. rewrite Hct in Hct'. injection Hct' as ->. lia. }
  fold addr in Hi, Hrow, Hmiss.
  pose proof (policy_next_range _ _ p _ Hinv Hi) as Hway.
  destruct (lookup_lt_is_Some_2 row (Z.to_nat (policy_next p (idx addr)).1))
    as [victim Hvic]; [lia|].
  assert (Hway31 : 0 <= (policy_next p (idx addr)).1 < 2 ^ 31) by lia.
  assert (Hwb : exists mh1,
    (if valid victim && dirty victim
     then access m mh (to_uint64 victim s32 l32) (linesz c) true
     else Done mh) = Done mh1 /\ all_levels good m mh1).
  { destruct (valid victim && dirty victim); [|by exists mh].
    apply access_good, Hmh. }
  destruct Hwb as (mh1 & Hwb & Hmh1).
  destruct (access_good m mh1 (to_uint64 addr s32 l32) (linesz c) false Hmh1)
    as (mh2 & Hfill & Hmh2).
  exists p, row, victim, mh1, mh2. cbv zeta.
  split; [done|]. split; [|split; [done|]].
  - apply tags_at_Done. exists row. repeat split; (done || lia).
  - split; [exact Hwb|]. split; [exact Hfill|]. split; [exact Hmh2|].
    rewrite (access_miss m c mh raw bytes store p row victim Hp Hrow Hmiss Hvic Hway31).
    fold addr s32 l32. rewrite Hwb. cbn [mbind outcome_bind].
    rewrite Hfill. reflexivity.
Qed.

(** After an access that returns, the line is in the cache. *)
Lemma access_present m (c : cache_sim_t) (mh : chain m) raw bytes store c1 mh1 :
  let addr := addr_of_raw raw (wrap 32 (sets c)) (wrap 32 (linesz c)) in
  good c -> access (S m) (c, mh) raw bytes store = Done (c1, mh1) ->
  sets c1 = sets c /\ linesz c1 = linesz c /\
  exists w, check_tag c1 addr = Done w /\ 0 <= w.
Proof.
  intros addr Hc Hacc.
  destruct (good_lookup c raw Hc) as
    (p & row & Hp & Hinv & Hi & Hrow & Hlen & Hndr & Hw & [[Hmiss Hct]|(i & e & Hfind & Hct & Hiw)]);
    try fold addr in Hi; try fold addr in Hrow; try fold addr in Hmiss;
    try fold addr in Hfind; try fold addr in Hct.
  - pose proof (policy_next_range _ _ p _ Hinv Hi) as Hway.
    set (way := (policy_next p (idx addr)).1) in *.
    destruct (lookup_lt_is_Some_2 row (Z.to_nat way)) as [victim Hvic]; [lia|].
    assert (Hway31 : 0 <= way < 2 ^ 31) by lia.
    rewrite (access_miss m c mh raw bytes store p row victim Hp Hrow Hmiss Hvic Hway31) in Hacc.
    apply bind_Done in Hacc as (mh1' & _ & Hacc).
    apply bind_Done in Hacc as (mh2' & _ & Hacc).
    injection Hacc as <- <-. cbn [sets linesz]. split; [done|]. split; [done|].
    exists way. split; [|lia]. apply check_tag_Done. eexists. split; [lia|].
    cbn [tags]. fold addr way. split.
    + apply list_lookup_insert_eq. eauto using lookup_lt_Some.
    + rewrite (find_way_insert_fresh row addr (Z.to_nat way)); try done.
      * rewrite Z2Nat.id by lia. symmetry. apply to_int_small. lia.
      * lia.
  - rewrite (access_hit m c mh raw bytes store (Z.of_nat i) p Hct ltac:(lia) Hp) in Hacc.
    fold addr in Hacc.
    pose proof Hfind as (Hie & _)%find_way_Some.
    destruct store.
    + apply bind_Done in Hacc as (c' & Hm & Hacc). injection Hacc as <- <-.
      apply tags_modify_Done in Hm as (row' & e' & _ & _ & Hrow' & He' & ->).
      cbn [tags perf] in Hrow'. rewrite Nat2Z.id in *.
      assert (row' = row) as -> by congruence.
      assert (e' = e) as -> by congruence.
      split; [done|]. split; [done|].
      exists (Z.of_nat i). split; [|lia]. apply check_tag_Done. eexists. split; [lia|].
      cbn [tags with_tags with_policy]. split.
      * apply list_lookup_insert_eq. eauto using lookup_lt_Some.
      * rewrite (find_way_set_dirty row addr i e Hfind).
        symmetry. apply to_int_small. lia.
    + cbn in Hacc. injection Hacc as <- <-.
      split; [done|]. split; [done|]. exists (Z.of_nat i). split; [|lia]. exact Hct.
Qed.

(** C7.  On a new cache an access is a miss, and a second access to the
    same line straight after it is a hit: it counts the access and no
    miss, leaves the miss handler as it is, tells the policy through
    [update], and changes the tag array only for a store, by marking the
    slot of the line dirty. *)
Theorem hit_after_cold_miss m (c : cache_sim_t) (mh : chain m) raw bytes raw2 bytes2 store2 :
  let addr := addr_of_raw raw (wrap 32 (sets c)) (wrap 32 (linesz c)) in
  fresh c -> all_levels good m mh ->
  addr_of_raw raw2 (wrap 32 (sets c)) (wrap 32 (linesz c)) = addr ->
  exists c1 mh1 c2 p1 w row e,
    access (S m) (c, mh) raw bytes false = Done (c1, mh1) /\
    perf_counter c1 = [PerfAccess false bytes; PerfMiss false] /\
    access (S m) (c1, mh1) raw2 bytes2 store2 = Done (c2, mh1) /\
    perf_counter c2 = perf_counter c1 ++ [PerfAccess store2 bytes2] /\
    policy c1 = Some p1 /\ policy c2 = Some (policy_update p1 addr w) /\
    check_tag c1 addr = Done w /\ 0 <= w /\
    tags c1 !! Z.to_nat (idx addr) = Some row /\ row !! Z.to_nat w = Some e /\
    tags c2 = (if store2
               then <[Z.to_nat (idx addr) := <[Z.to_nat w := set_dirty e]> row]> (tags c1)
               else tags c1).
Proof.
  intros addr Hfresh Hmh Hsame.
  destruct (fresh_good c Hfresh) as (Hc & Hperf & Hinvalid).
  destruct (access_good (S m) (c, mh) raw bytes false (conj Hc Hmh)) as ([c1 mh1] & Hacc & Hc1 & Hmh1).
  cbn [fst snd] in Hc1, Hmh1.
  destruct (access_present m c mh raw bytes false c1 mh1 Hc Hacc) as (Hs1 & Hl1 & w & Hct1 & Hw).
  fold addr in Hct1.
  (* the first access is a miss *)
  assert (Hpc1 : perf_counter c1 = [PerfAccess false bytes; PerfMiss false]).
  { destruct (good_lookup c raw Hc) as
      (p & row & Hp & Hinv & Hi & Hrow & Hlen & Hndr & Hww & [[Hmiss Hct]|(i & e & Hfind & _)]);
      try fold addr in Hi; try fold addr in Hrow; try fold addr in Hmiss;
      try fold addr in Hfind.
    2:{ apply find_way_Some in Hfind as (Hie & (Hv & _)%addr_eq_inv & _).
        rewrite Forall_lookup in Hinvalid. specialize (Hinvalid _ _ Hrow).
        rewrite Forall_lookup in Hinvalid. rewrite (Hinvalid _ _ Hie) in Hv. discriminate. }
    pose proof (policy_next_range _ _ p _ Hinv Hi) as Hway.
    set (way := (policy_next p (idx addr)).1) in *.
    destruct (lookup_lt_is_Some_2 row (Z.to_nat way)) as [victim Hvic]; [lia|].
    assert (Hway31 : 0 <= way < 2 ^ 31) by lia.
    rewrite (access_miss m c mh raw bytes false p row victim Hp Hrow Hmiss Hvic Hway31) in Hacc.
    assert (Hvv : valid victim = false).
    { rewrite Forall_lookup in Hinvalid. specialize (Hinvalid _ _ Hrow).
      rewrite Forall_lookup in Hinvalid. eauto. }
    rewrite Hvv in Hacc. cbn [andb mbind outcome_bind] in Hacc.
    apply bind_Done in Hacc as (mh2 & _ & Hacc). injection Hacc as <- <-.
    cbn [perf_counter]. rewrite Hperf. reflexivity. }
  destruct Hc1 as [(Hg1 & Hshape1 & p1 & Hp1 & Hinv1) Hnd1].
  (* the second access is a hit *)
  pose proof Hct1 as (row & Hi & Hrow & Hwdef)%check_tag_Done.
  destruct (find_way row addr) as [[i e]|] eqn:Hfind; [|lia].
  pose proof Hfind as (Hie & _)%find_way_Some.
  assert (Hlen : length row = Z.to_nat (ways c1)).
  { destruct Hshape1 as [_ Hrows]. rewrite Forall_lookup in Hrows. eauto. }
  assert (Hiw : w = Z.of_nat i).
  { rewrite Hwdef. apply to_int_small. apply lookup_lt_Some in Hie.
    destruct Hg1 as (_ & _ & _ & _ & Hways). lia. }
  assert (Hct2 : check_tag c1 (addr_of_raw raw2 (wrap 32 (sets c1)) (wrap 32 (linesz c1))) = Done w).
  { now rewrite Hs1, Hl1, Hsame. }
  pose proof (access_hit m c1 mh1 raw2 bytes2 store2 w p1 Hct2 Hw Hp1) as Hacc2.
  rewrite Hs1, Hl1, Hsame in Hacc2.
  assert (Hiz : Z.to_nat w = i) by lia.
  destruct store2.
  - assert (Hm : tags_modify (perf c1 (PerfAccess true bytes2)) (idx addr) w set_dirty =
                 Done (with_tags (perf c1 (PerfAccess true bytes2))
                         (<[Z.to_nat (idx addr) := <[Z.to_nat w := set_dirty e]> row]> (tags c1)))).
    { apply tags_modify_Done. exists row, e. rewrite Hiz. repeat split; (done || lia). }
    rewrite Hm in Hacc2. cbn [mbind outcome_bind] in Hacc2.
    eexists c1, mh1, _, p1, w, row, e.
    split; [done|]. split; [done|]. split; [exact Hacc2|].
    rewrite Hiz. repeat split; (done || lia).
  - cbn [mbind outcome_bind] in Hacc2.
    eexists c1, mh1, _, p1, w, row, e.
    split; [done|]. split; [done|]. split; [exact Hacc2|].
    rewrite Hiz. repeat split; (done || lia).
Qed.

(** ** Cleaning and invalidating *)

(** One line of the walk: slots only lose flags, and nothing else but
    the counters changes. *)
Lemma clean_line_fades c a clean inval c' :
  clean_line c a clean inval = Done c' ->
  rows_fade (tags c') (tags c) /\
  sets c' = sets c /\ ways c' = ways c /\ linesz c' = linesz c /\
  policy c' = policy c /\ name c' = name c.
Proof.
  unfold clean_line. intros (h & Hct & H)%bind_Done.
  destruct (0 <=? h); [|injection H as <-; split; [apply rows_fade_refl|done]].
  apply bind_Done in H as (c1 & H1 & H).
  assert (Hc1 : rows_fade (tags c1) (tags c) /\
    sets c1 = sets c /\ ways c1 = ways c /\ linesz c1 = linesz c /\
    policy c1 = policy c /\ name c1 = name c).
  { destruct clean; [|injection H1 as <-; split; [apply rows_fade_refl|done]].
    apply bind_Done in H1 as (e & He & H1). destruct (is_dirty e).
    - apply tags_modify_fades in H1; [|apply set_clean_fades].
      cbn in H1. tauto.
    - injection H1 as <-. split; [apply rows_fade_refl|done]. }
  destruct Hc1 as (Hf1 & Hs1 & Hw1 & Hl1 & Hp1 & Hn1).
  destruct inval.
  - apply tags_modify_fades in H as (Hf & Hs & Hw & Hl & _ & Hp & Hn);
      [|apply set_invalid_fades].
    split; [eauto using rows_fade_trans|]. repeat split; congruence.
  - injection H as <-. repeat split; assumption.
Qed.

Lemma clean_line_Fault c a clean inval f :
  clean_line c a clean inval = Fault f -> f = OutOfBounds.
Proof.
  unfold clean_line.
  destruct (check_tag c a) as [h|x] eqn:Hct; cbn [mbind outcome_bind];
    [|intros [= <-]; eauto using check_tag_Fault].
  destruct (0 <=? h); [|discriminate].
  assert (Hinval : forall c1, (if inval then tags_modify c1 (idx a) h set_invalid
                               else Done c1) = Fault f -> f = OutOfBounds).
  { intros c1. destruct inval; [|discriminate]. eauto using tags_modify_Fault. }
  destruct clean; cbn [mbind outcome_bind]; [|apply Hinval].
  unfold tags_at.
  destruct (vec_at (tags c) (idx a)) as [row|x] eqn:Hr; cbn [mbind outcome_bind];
    [|intros [= <-]; eauto using vec_at_Fault].
  destruct (vec_at row h) as [e|x] eqn:He; cbn [mbind outcome_bind];
    [|intros [= <-]; eauto using vec_at_Fault].
  destruct (is_dirty e); cbn [mbind outcome_bind]; [|apply Hinval].
  destruct (tags_modify _ _ _ set_clean) as [c1|x] eqn:H1; cbn [mbind outcome_bind];
    [apply Hinval|intros [= <-]; eauto using tags_modify_Fault].
Qed.

Lemma good_fade_same c c' :
  good c -> rows_fade (tags c') (tags c) ->
  sets c' = sets c -> ways c' = ways c -> linesz c' = linesz c ->
  policy c' = policy c -> good c'.
Proof.
  intros Hc Hf Hs Hw Hl Hp.
  pose proof Hc as [(_ & _ & p & Hpc & Hinv) _].
  eapply good_fade; eauto. congruence.
Qed.

Lemma clean_line_good c a clean inval c' :
  good c -> clean_line c a clean inval = Done c' -> good c'.
Proof.
  intros Hc (Hf & Hs & Hw & Hl & Hp & _)%clean_line_fades.
  eauto using good_fade_same.
Qed.

(** In a well formed cache [check_tag] answers [-1] only when no slot
    of the row matches. *)
Lemma check_tag_miss c a h :
  good c -> check_tag c a = Done h -> h < 0 ->
  h = -1 /\ exists row, tags c !! Z.to_nat (idx a) = Some row /\ find_way row a = None.
Proof.
  intros [(Hg & [_ Hrows] & _) _] (row & Hi & Hrow & ->)%check_tag_Done Hneg.
  destruct (find_way row a) as [[i e]|] eqn:Hf; [|eauto].
  exfalso. apply find_way_Some in Hf as (Hie%lookup_lt_Some & _).
  rewrite Forall_lookup in Hrows. specialize (Hrows _ _ Hrow).
  destruct Hg as (_ & _ & _ & _ & Hw).
  rewrite to_int_small in Hneg; lia.
Qed.

Lemma check_tag_hit c a h :
  good c -> check_tag c a = Done h -> 0 <= h ->
  exists row e, tags c !! Z.to_nat (idx a) = Some row /\
    find_way row a = Some (Z.to_nat h, e) /\ no_dup_row row.
Proof.
  intros [(Hg & [_ Hrows] & _) Hnd] (row & Hi & Hrow & ->)%check_tag_Done Hpos.
  destruct (find_way row a) as [[i e]|] eqn:Hf; [|lia].
  exists row, e. split; [done|].
  pose proof Hf as (Hie%lookup_lt_Some & _)%find_way_Some.
  rewrite Forall_lookup in Hrows. specialize (Hrows _ _ Hrow).
  destruct Hg as (_ & _ & _ & _ & Hw).
  rewrite to_int_small by lia. rewrite Nat2Z.id. split; [done|].
  unfold no_dup in Hnd. rewrite Forall_lookup in Hnd. eauto.
Qed.

(** A line that is absent stays absent while slots only lose flags. *)
Lemma check_tag_miss_fade c c' a :
  good c -> rows_fade (tags c') (tags c) ->
  check_tag c a = Done (-1) -> check_tag c' a = Done (-1).
Proof.
  intros Hc Hf Hct.
  destruct (check_tag_miss c a (-1) Hc Hct ltac:(lia)) as (_ & row & Hrow & Hnone).
  apply check_tag_Done in Hct as (_ & Hi & _).
  destruct (Forall2_lookup_r _ _ _ _ _ Hf Hrow) as (row' & Hrow' & Hrf).
  apply check_tag_Done. exists row'. split; [done|]. split; [done|].
  now rewrite (find_way_None_fade row' row a Hrf Hnone).
Qed.

(** A line that was not found is left alone. *)
Lemma clean_line_miss c a clean inval h :
  check_tag c a = Done h -> h < 0 -> clean_line c a clean inval = Done c.
Proof.
  intros Hct Hh. unfold clean_line. rewrite Hct. cbn [mbind outcome_bind].
  destruct (Z.leb_spec 0 h); [lia|done].
Qed.

(** After a line was cleaned and invalidated it is absent. *)
Lemma clean_line_absent c a c' :
  good c -> clean_line c a true true = Done c' -> check_tag c' a = Done (-1).
Proof.
  intros Hc Hcl. pose proof Hcl as Hcl0.
  unfold clean_line in Hcl. apply bind_Done in Hcl as (h & Hct & H).
  destruct (Z.leb_spec 0 h) as [Hh|Hh].
  2:{ injection H as <-.
      destruct (check_tag_miss c a h Hc Hct Hh) as (-> & _). exact Hct. }
  destruct (check_tag_hit c a h Hc Hct Hh) as (row & e & Hrow & Hfind & Hndr).
  apply clean_line_fades in Hcl0 as (Hf & _).
  apply bind_Done in H as (c1 & _ & H).
  apply tags_modify_Done in H as (row1 & e1 & Hi & _ & Hrow1 & He1 & ->).
  cbn [tags with_tags] in *.
  assert (Hl1 : (Z.to_nat (idx a) < length (tags c1))%nat) by eauto using lookup_lt_Some.
  assert (Hl2 : (Z.to_nat h < length row1)%nat) by eauto using lookup_lt_Some.
  apply check_tag_Done. eexists. split; [done|].
  split; [now apply list_lookup_insert_eq|].
  set (row' := <[Z.to_nat h := set_invalid e1]> row1).
  assert (Hrf : Forall2 fades row' row).
  { destruct (Forall2_lookup_r _ _ _ _ _ Hf Hrow) as (r & Hr & Hrf).
    rewrite list_lookup_insert_eq in Hr by done. injection Hr as <-. exact Hrf. }
  assert (Hnone : find_way row' a = None).
  { apply find_way_None, Forall_lookup. intros j y Hj Hy.
    destruct (Forall2_lookup_l _ _ _ _ _ Hrf Hj) as (y0 & Hy0 & Hfy).
    pose proof (addr_eq_fades _ _ _ Hfy Hy) as Hy0a.
    pose proof (find_way_unique row a _ e j y0 Hndr Hfind Hy0 Hy0a) as ->.
    subst row'. rewrite list_lookup_insert_eq in Hj by done.
    injection Hj as <-. apply addr_eq_inv in Hy as (Hv & _). discriminate Hv. }
  now rewrite Hnone.
Qed.

(** The walk keeps the engine well formed. *)
Lemma clean_loop_good fuel c cur_addr end_addr clean inval c' :
  good c -> clean_loop fuel c cur_addr end_addr clean inval = Done c' ->
  good c' /\ rows_fade (tags c') (tags c) /\
  sets c' = sets c /\ linesz c' = linesz c.
Proof.
  revert c cur_addr. induction fuel as [|fuel IH]; intros c cur_addr Hc H.
  - cbn in H. destruct (addr_lt cur_addr end_addr); [discriminate|].
    injection H as <-. auto using rows_fade_refl.
  - cbn [clean_loop] in H. destruct (addr_lt cur_addr end_addr).
    2:{ injection H as <-. auto using rows_fade_refl. }
    apply bind_Done in H as (c1 & H1 & H).
    pose proof (clean_line_good _ _ _ _ _ Hc H1) as Hc1.
    apply clean_line_fades in H1 as (Hf1 & Hs1 & _ & Hl1 & _).
    destruct (IH _ _ Hc1 H) as (Hc' & Hf & Hs & Hl).
    split; [done|]. split; [eauto using rows_fade_trans|]. split; congruence.
Qed.

(** Running the walk again changes nothing and counts nothing. *)
Lemma clean_loop_idem fuel c cur_addr end_addr c' :
  good c -> clean_loop fuel c cur_addr end_addr true true = Done c' ->
  clean_loop fuel c' cur_addr end_addr true true = Done c'.
Proof.
  revert c cur_addr. induction fuel as [|fuel IH]; intros c cur_addr Hc H.
  - cbn in *. destruct (addr_lt cur_addr end_addr); [discriminate|done].
  - cbn [clean_loop] in *. destruct (addr_lt cur_addr end_addr); [|done].
    apply bind_Done in H as (c1 & H1 & H).
    pose proof (clean_line_good _ _ _ _ _ Hc H1) as Hc1.
    pose proof (clean_line_absent _ _ _ Hc H1) as Habs1.
    pose proof (clean_line_fades _ _ _ _ _ H1) as (_ & Hs1 & _).
    destruct (clean_loop_good _ _ _ _ _ _ _ Hc1 H) as (Hc' & Hf & Hs & _).
    pose proof (check_tag_miss_fade c1 c' cur_addr Hc1 Hf Habs1) as Habs.
    rewrite (clean_line_miss c' cur_addr true true (-1) Habs) by lia.
    cbn [mbind outcome_bind]. rewrite Hs. eauto.
Qed.

Lemma clean_invalidate_good n (h : chain n) addr bytes clean inval h' :
  all_levels good n h -> clean_invalidate n h addr bytes clean inval = Done h' ->
  all_levels good n h'.
Proof.
  revert h h'. induction n as [|m IH]; intros h h' Hh H; [done|].
  destruct h as [c mh]. destruct Hh as [Hc Hmh]. cbn [clean_invalidate fst snd] in *.
  apply bind_Done in H as (c1 & H1 & H).
  apply bind_Done in H as (mh1 & Hm & H). injection H as <-.
  apply clean_loop_good in H1 as (Hc1 & _); [|done].
  split; [done|]. cbn [snd]. eauto.
Qed.

(** X20.  [clean_invalidate(a, n, true, true)] a second time, where the
    first call returns: on a chain of well formed caches without
    duplicates (every state reached from new caches is one,
    [reachable_good]) the second call returns the state the first call
    left, tag arrays and counters alike, so no further write-back or
    clean is counted.  (Where the walk of the first call goes beyond
    the last set, the call does not return.) *)
Theorem clean_invalidate_idempotent n (h h1 : chain n) addr bytes :
  all_levels good n h ->
  clean_invalidate n h addr bytes true true = Done h1 ->
  clean_invalidate n h1 addr bytes true true = Done h1.
Proof.
  revert h h1. induction n as [|m IH]; intros h h1 Hh H.
  { destruct h1. reflexivity. }
  destruct h as [c mh]. destruct Hh as [Hc Hmh]. cbn [clean_invalidate fst snd] in *.
  apply bind_Done in H as (c1 & H1 & H).
  apply bind_Done in H as (mh1 & Hm & H). injection H as <-. cbn [fst snd].
  destruct (clean_loop_good _ _ _ _ _ _ _ Hc H1) as (_ & Hf & Hs & Hl).
  rewrite (rows_fade_length _ _ Hf), Hs, Hl.
  rewrite (clean_loop_idem _ _ _ _ _ Hc H1). cbn [mbind outcome_bind].
  rewrite (IH _ _ Hmh Hm). reflexivity.
Qed.

(** Every state reached from new caches is well formed and without
    duplicates. *)
Lemma reachable_good n (h : chain n) : reachable n h -> all_levels good n h.
Proof.
  induction 1 as [h Hfresh|h raw bytes store h' _ IH Hacc|h addr bytes clean inval h' _ IH Hcl].
  - revert h Hfresh. induction n as [|m IHm]; intros h Hf; [done|].
    destruct Hf as [Hc Hm]. split; [apply fresh_good, Hc|auto].
  - destruct (access_good n h raw bytes store IH) as (h2 & Hacc2 & Hgood).
    congruence.
  - eauto using clean_invalidate_good.
Qed.

(** C10.  In every state reached from new caches by calls of [access]
    and [clean_invalidate], two slots of one row of a tag array that are
    valid and hold the same tag are one slot; hence [check_tag] has at
    most one slot to find; and after [victimize] filled a way on a miss,
    the look-up on the store path answers with that way. *)
Theorem no_duplicate_tags n (h : chain n) :
  reachable n h ->
  all_levels no_dup n h /\
  all_levels (fun c => forall a row i j ei ej,
    tags c !! Z.to_nat (idx a) = Some row ->
    row !! i = Some ei -> addr_eq ei a = true ->
    row !! j = Some ej -> addr_eq ej a = true -> i = j) n h /\
  all_levels (fun c => forall raw victim c',
    let addr := addr_of_raw raw (wrap 32 (sets c)) (wrap 32 (linesz c)) in
    check_tag c addr = Done (-1) ->
    victimize c addr = Done (victim, c') ->
    exists p, policy c = Some p /\
      check_tag c' addr = Done (policy_next p (idx addr)).1) n h.
Proof.
  intros Hr%reachable_good. revert h Hr.
  induction n as [|m IH]; intros h Hh; [done|].
  destruct h as [c mh]. destruct Hh as [Hc Hmh]. cbn [all_levels fst snd] in *.
  destruct (IH mh Hmh) as (IH1 & IH2 & IH3).
  split; [split; [apply Hc|exact IH1]|].
  split; (split; [|assumption]).
  - intros a row i j ei ej Hrow Hi Hei Hj Hej.
    destruct Hc as [_ Hnd]. unfold no_dup in Hnd. rewrite Forall_lookup in Hnd.
    apply (Hnd _ _ Hrow i j ei ej Hi Hj).
    apply addr_eq_inv in Hei as (? & ? & ?). apply addr_eq_inv in Hej as (? & ? & ?).
    apply addr_eq_same_tag; congruence.
  - intros raw victim c' Hct Hvic.
    set (addr := addr_of_raw raw (wrap 32 (sets c)) (wrap 32 (linesz c))) in *.
    destruct (check_tag_miss c addr (-1) Hc Hct ltac:(lia)) as (_ & row & Hrow & Hnone).
    pose proof Hc as [(Hg & _ & p & Hp & Hinv) _].
    exists p. split; [done|].
    pose proof (addr_of_raw_idx_range raw (sets c) (wrap 32 (linesz c))
                  ltac:(apply Hg) ltac:(apply Hg)) as Hi.
    fold addr in Hi.
    pose proof (policy_next_range _ _ p _ Hinv Hi) as Hway.
    unfold victimize, policy_of in Hvic. rewrite Hp in Hvic. cbn [mbind outcome_bind] in Hvic.
    destruct (policy_next p (idx addr)) as [way p1]. cbn [fst] in *.
    apply bind_Done in Hvic as (v & Hv & Hvic).
    apply bind_Done in Hvic as (c2 & Hm & Hvic). injection Hvic as _ <-.
    apply tags_modify_Done in Hm as (row' & e & _ & _ & Hrow' & He & ->).
    cbn [tags with_policy with_tags] in *.
    assert (row' = row) as -> by congruence.
    apply check_tag_Done. eexists. split; [lia|]. split.
    + cbn [tags]. apply list_lookup_insert_eq. eauto using lookup_lt_Some.
    + rewrite (find_way_insert_fresh row addr (Z.to_nat way) (set_valid addr));
        try done; [|eauto using lookup_lt_Some].
      rewrite Z2Nat.id by lia. symmetry. apply to_int_small.
      destruct Hg as (_ & _ & _ & _ & Hw). lia.
Qed.

(** *** The bound on the walk *)

(** The loop of [clean_invalidate] ends within the iterations the model
    allows it: a look-up beyond the last row faults, and until then each
    iteration moves one row on.  The set index must be wide enough to
    count the rows. *)
Lemma clean_loop_finishes fuel c cur_addr end_addr clean inval :
  0 <= idx_bits -> Z.of_nat (length (tags c)) < 2 ^ idx_bits ->
  0 <= idx cur_addr ->
  (1 <= fuel)%nat -> Z.of_nat (length (tags c)) - idx cur_addr < Z.of_nat fuel ->
  clean_loop fuel c cur_addr end_addr clean inval <> Fault Unfinished.
Proof.
  intros Hw. revert c cur_addr.
  induction fuel as [|fuel IH]; intros c cur_addr Hlen Hi Hf1 Hf; [lia|].
  cbn [clean_loop]. destruct (addr_lt cur_addr end_addr); [|discriminate].
  destruct (clean_line c cur_addr clean inval) as [c1|x] eqn:H1; cbn [mbind outcome_bind].
  2:{ apply clean_line_Fault in H1 as ->. discriminate. }
  pose proof H1 as (Hfade & Hs & _)%clean_line_fades.
  apply rows_fade_length in Hfade.
  unfold clean_line in H1. apply bind_Done in H1 as (h & Hct & _).
  apply check_tag_Done in Hct as (row & _ & Hrow%lookup_lt_Some & _).
  assert (Hnext : idx (next_cacheline cur_addr (wrap 32 (sets c1))) = idx cur_addr + 1).
  { unfold next_cacheline; cbn [idx]. apply wrap_small. lia. }
  apply IH; rewrite ?Hnext, ?Hfade; lia.
Qed.

Lemma clean_invalidate_finishes n (h : chain n) addr bytes clean inval :
  0 <= idx_bits ->
  all_levels (fun c => Z.of_nat (length (tags c)) < 2 ^ idx_bits) n h ->
  clean_invalidate n h addr bytes clean inval <> Fault Unfinished.
Proof.
  intros Hw. revert h. induction n as [|m IH]; intros h Hh; [discriminate|].
  destruct h as [c mh]. destruct Hh as [Hc Hmh]. cbn [clean_invalidate fst snd] in *.
  destruct (clean_loop _ _ _ _ _ _) as [c1|x] eqn:H1; cbn [mbind outcome_bind].
  - destruct (clean_invalidate m mh addr bytes clean inval) as [mh1|y] eqn:H2;
      cbn [mbind outcome_bind]; [discriminate|].
    intros [= ->]. now apply (IH mh Hmh).
  - intros [= ->]. revert H1. apply clean_loop_finishes; try done; try lia.
    + apply addr_of_raw_idx_nonneg.
    + pose proof (addr_of_raw_idx_nonneg addr (wrap 32 (sets c)) (wrap 32 (linesz c))). lia.
Qed.

(** ** Construction with invalid parameters *)

(** C5, at parameters the constructors accept.  No constructor tests
    [ways]: with [ways = 0] each of the three builds an engine whose
    rows are empty.  The constructor that takes a policy name does not
    test the name: for an unknown name it builds an engine with its tag
    array allocated and a null policy.  (The configuration string is
    tested with [policy_is_valid] and [sets] and [linesz] are tested by
    [init], see [init_Engine_iff].) *)
Theorem construction_accepts_invalid :
  (exists c, cache_sim_new 4 0 64 "L1" "lru" = Engine c /\
     ways c = 0 /\ tags c = [[]; []; []; []]) /\
  (exists c, cache_sim_new_lfsr 4 0 64 "L1" = Engine c /\
     ways c = 0 /\ tags c = [[]; []; []; []]) /\
  (exists c, cache_sim_of_config "4:0:64:lru" "L1" = Engine c /\
     ways c = 0 /\ tags c = [[]; []; []; []]) /\
  (exists c, cache_sim_new 4 2 64 "L1" "random" = Engine c /\
     policy_is_valid "random" = false /\
     policy c = None /\ length (tags c) = 4%nat).
Proof.
  repeat split; eexists; (split; [reflexivity|]); repeat split; reflexivity.
Qed.

(** The configuration string is refused when its policy name is not one
    of the five. *)
Lemma cache_sim_of_config_policy config nm c :
  cache_sim_of_config config nm = Engine c ->
  exists p, policy c = Some p.
Proof.
  unfold cache_sim_of_config.
  destruct (strchr config ":") as [at_wp|]; [|discriminate].
  destruct (strchr (str_next at_wp) ":") as [at_bp|]; [|discriminate].
  destruct (strchr (str_next at_bp) ":") as [at_policy|]; [|discriminate].
  destruct (policy_is_valid (str_next at_policy)) eqn:Hv; [|discriminate].
  cbn [negb]. unfold init.
  destruct (_ || _); [discriminate|]. destruct (_ || _); [discriminate|].
  intros [= <-]. cbn [policy].
  destruct (create_eviction_policy_valid
              (wrap 64 (atoi (str_between config (str_next at_wp))))
              (wrap 64 (atoi (str_between (str_next at_wp) (str_next at_bp))))
              (str_next at_policy) Hv) as [k ->].
  eauto.
Qed.

Lemma cache_sim_new_fresh s w l nm pol c :
  valid_geometry s w l -> policy_is_valid pol = true ->
  cache_sim_new s w l nm pol = Engine c -> fresh c.
Proof. intros Hg Hp Hc. exists s, w, l, nm, pol. auto. Qed.


(** * Further properties of the decomposed address *)

(** The decomposition reads the line number modulo [2 ^ 32] only. *)
Lemma addr_of_raw_line a b s l :
  is_pow2 l -> (a / l) mod 2 ^ 32 = (b / l) mod 2 ^ 32 ->
  addr_of_raw a s l = addr_of_raw b s l.
Proof.
  intros (kl & Hkl & ->) H. unfold addr_of_raw.
  rewrite ilog2_pow2, !(Z.shiftr_div_pow2 _ kl) by done.
  assert (H' : wrap 32 (a / 2 ^ kl) = wrap 32 (b / 2 ^ kl)) by exact H.
  now rewrite H'.
Qed.

(** X1.  Recomposing the decomposition of an address below [2 ^ 32]
    lines gives the first byte of its line, aligned or not. *)
Theorem recompose_is_line_base a s l :
  32 <= tag_bits -> 32 <= idx_bits ->
  is_pow2 s -> s < 2 ^ 32 -> is_pow2 l -> l < 2 ^ 32 ->
  0 <= a < 2 ^ 32 * l ->
  to_uint64 (addr_of_raw a s l) s l = a - a mod l.
Proof.
  intros Ht Hi Hs Hs32 Hl Hl32 Ha.
  pose proof (is_pow2_pos l Hl) as Hlpos.
  pose proof (Z.mod_pos_bound a l Hlpos) as Hm.
  pose proof (Z.mod_le a l ltac:(lia) Hlpos) as Hle.
  assert (Hbase : a - a mod l = l * (a / l)).
  { pose proof (Z.div_mod a l ltac:(lia)). lia. }
  rewrite (addr_of_raw_line a (a - a mod l) s l Hl).
  - apply to_uint64_addr_of_raw_low; try done; [lia|].
    rewrite Hbase, Z.mul_comm. now apply Z.mod_mul; lia.
  - f_equal. rewrite Hbase, Z.mul_comm, Z.div_mul; lia.
Qed.

(** X2.  Two raw addresses decompose to the same tag and set index
    exactly when their line numbers agree modulo [2 ^ 32]: addresses of
    one line always do, and so do addresses [2 ^ 32] lines apart. *)
Theorem same_decomposition_iff a b s l :
  32 <= tag_bits -> 32 <= idx_bits ->
  is_pow2 s -> s < 2 ^ 32 -> is_pow2 l ->
  addr_of_raw a s l = addr_of_raw b s l <->
  (a / l) mod 2 ^ 32 = (b / l) mod 2 ^ 32.
Proof.
  intros Ht Hi Hs Hs32 Hl. split; [|now apply addr_of_raw_line].
  destruct (is_pow2_below s Hs Hs32) as (ks & Hks & ->).
  destruct Hl as (kl & Hkl & ->).
  unfold addr_of_raw. rewrite !ilog2_pow2, !(Z.shiftr_div_pow2 _ kl) by lia.
  fold (wrap 32 (a / 2 ^ kl)) (wrap 32 (b / 2 ^ kl)).
  set (x := wrap 32 (a / 2 ^ kl)). set (y := wrap 32 (b / 2 ^ kl)).
  assert (Hx : 0 <= x < 2 ^ 32) by (apply wrap_range; lia).
  assert (Hy : 0 <= y < 2 ^ 32) by (apply wrap_range; lia).
  assert (0 < 2 ^ ks) by (apply Z.pow_pos_nonneg; lia).
  rewrite (wrap_small 32 (2 ^ ks - 1)) by lia.
  replace (2 ^ ks - 1) with (Z.ones ks) by (rewrite Z.ones_equiv; lia).
  assert (Hsmall : forall z, 0 <= z < 2 ^ 32 ->
            0 <= Z.shiftr z ks < 2 ^ 32 /\ 0 <= Z.land z (Z.ones ks) < 2 ^ 32).
  { intros z Hz. rewrite Z.shiftr_div_pow2, Z.land_ones by lia. split.
    - split; [apply Z.div_pos; lia|]. apply Z.div_lt_upper_bound; nia.
    - pose proof (Z.mod_pos_bound z (2 ^ ks) ltac:(lia)).
      pose proof (Z.mod_le z (2 ^ ks) ltac:(lia) ltac:(lia)). lia. }
  destruct (Hsmall x Hx) as [Hxt Hxi]. destruct (Hsmall y Hy) as [Hyt Hyi].
  rewrite !(wrap_small_ge tag_bits 32), !(wrap_small_ge idx_bits 32) by (done || lia).
  intros [= Htag Hidx].
  rewrite <- (lor_split x ks), <- (lor_split y ks) by lia. now rewrite Htag, Hidx.
Qed.

(** X3.  Whatever the raw address and the widths of the fields, the set
    index of its decomposition is below [sets], and tag and index
    together stay below [2 ^ 32] lines. *)
Theorem decomposed_fields_in_range raw s l :
  is_pow2 s -> s < 2 ^ 32 ->
  let a := addr_of_raw raw s l in
  0 <= idx a < s /\ 0 <= tag a /\ tag a * s + idx a < 2 ^ 32.
Proof.
  intros Hs Hs32. destruct (is_pow2_below s Hs Hs32) as (ks & Hks & ->).
  cbv zeta. unfold addr_of_raw; cbn [tag idx].
  set (x := wrap 32 (Z.shiftr raw (ilog2 l))).
  assert (Hx : 0 <= x < 2 ^ 32) by (apply wrap_range; lia).
  assert (0 < 2 ^ ks) by (apply Z.pow_pos_nonneg; lia).
  rewrite ilog2_pow2 by lia.
  rewrite (wrap_small 32 (2 ^ ks - 1)) by lia.
  replace (2 ^ ks - 1) with (Z.ones ks) by (rewrite Z.ones_equiv; lia).
  rewrite Z.land_ones, Z.shiftr_div_pow2 by lia.
  pose proof (Z.mod_pos_bound x (2 ^ ks) ltac:(lia)) as Hm.
  pose proof (Z.div_pos x (2 ^ ks) ltac:(lia) ltac:(lia)) as Hd.
  pose proof (wrap_le idx_bits (x mod 2 ^ ks) ltac:(lia)) as Hwi.
  pose proof (wrap_le tag_bits (x / 2 ^ ks) Hd) as Hwt.
  pose proof (Z.div_mod x (2 ^ ks) ltac:(lia)) as Hdm.
  split; [lia|]. split; [lia|]. nia.
Qed.

(** X4.  On valid addresses [operator<] is the strict order of the
    pairs (tag, idx): nothing is below itself, the order is transitive,
    and of two valid addresses one is below the other unless tag and
    index agree. *)
Theorem addr_lt_strict_order (a b c : cache_sim_addr_t) :
  addr_lt a a = false /\
  (addr_lt a b = true -> addr_lt b c = true -> addr_lt a c = true) /\
  (addr_lt a b = true -> addr_lt b a = false) /\
  (valid a = true -> valid b = true ->
   addr_lt a b = true \/ addr_lt b a = true \/ (tag a = tag b /\ idx a = idx b)).
Proof.
  unfold addr_lt. split; [|split; [|split]].
  - rewrite Z.ltb_irrefl, Z.ltb_irrefl, andb_false_r. cbn. apply andb_false_r.
  - rewrite !andb_true_iff, !orb_true_iff, !andb_true_iff, !Z.ltb_lt, !Z.eqb_eq.
    intros [[Ha Hb] H1] [[_ Hc] H2]. split; [split; assumption|]. lia.
  - rewrite !andb_true_iff, !orb_true_iff, !andb_true_iff, !Z.ltb_lt, !Z.eqb_eq.
    intros [_ H]. apply andb_false_iff. right.
    apply orb_false_iff. split; [apply Z.ltb_ge; lia|].
    apply andb_false_iff. destruct (Z.eqb_spec (tag b) (tag a)); [right|left; done].
    apply Z.ltb_ge. lia.
  - intros -> ->. cbn [andb].
    rewrite !orb_true_iff, !andb_true_iff, !Z.ltb_lt, !Z.eqb_eq. lia.
Qed.

(** X5.  [operator==] is symmetric and transitive, holds of an address
    and itself exactly when the address is valid, and looks at neither
    the dirty flag nor the set index. *)
Theorem addr_eq_partial_equivalence (a b c : cache_sim_addr_t) :
  addr_eq a b = addr_eq b a /\
  (addr_eq a b = true -> addr_eq b c = true -> addr_eq a c = true) /\
  addr_eq a a = valid a /\
  (forall d i, addr_eq (mk_addr (valid a) d (tag a) i) b = addr_eq a b).
Proof.
  unfold addr_eq. split; [|split; [|split]].
  - now rewrite (andb_comm (valid a)), (Z.eqb_sym (tag a)).
  - rewrite !andb_true_iff, !Z.eqb_eq. intuition congruence.
  - rewrite Z.eqb_refl, andb_true_r. apply andb_diag.
  - reflexivity.
Qed.


Lemma lor_shiftl_add t i k :
  0 <= k -> 0 <= i < 2 ^ k -> Z.lor (Z.shiftl t k) i = t * 2 ^ k + i.
Proof.
  intros Hk Hi. assert (0 < 2 ^ k) by (apply Z.pow_pos_nonneg; lia).
  assert (E1 : Z.shiftr (t * 2 ^ k + i) k = t).
  { rewrite Z.shiftr_div_pow2 by done.
    rewrite Z.div_add_l, Z.div_small by lia. lia. }
  assert (E2 : Z.land (t * 2 ^ k + i) (Z.ones k) = i).
  { rewrite Z.land_ones by done.
    rewrite Z.add_comm, Z.mod_add, Z.mod_small by lia. reflexivity. }
  rewrite <- (lor_split (t * 2 ^ k + i) k) by done. now rewrite E1, E2.
Qed.

(** The address [to_uint64] computes, where nothing wraps. *)
Lemma to_uint64_value a s l :
  32 <= tag_bits ->
  is_pow2 s -> s < 2 ^ 32 -> is_pow2 l -> l < 2 ^ 32 ->
  0 <= tag a -> 0 <= idx a < s -> tag a * s + idx a < 2 ^ 32 ->
  to_uint64 a s l = (tag a * s + idx a) * l.
Proof.
  intros Ht Hs Hs32 Hl Hl32 Htag Hidx Hfit.
  destruct (is_pow2_below s Hs Hs32) as (ks & Hks & ->).
  destruct (is_pow2_below l Hl Hl32) as (kl & Hkl & ->).
  assert (0 < 2 ^ ks) by (apply Z.pow_pos_nonneg; lia).
  assert (0 < 2 ^ kl) by (apply Z.pow_pos_nonneg; lia).
  unfold to_uint64. rewrite !ilog2_pow2 by lia.
  assert (Hsh : wrap tag_bits (Z.shiftl (tag a) ks) = Z.shiftl (tag a) ks).
  { apply (wrap_small_ge tag_bits 32); [done|lia|].
    rewrite Z.shiftl_mul_pow2 by lia. nia. }
  rewrite Hsh, lor_shiftl_add by lia. rewrite Z.shiftl_mul_pow2 by lia.
  apply wrap_small. split; [nia|].
  assert (2 ^ kl <= 2 ^ 31) by (apply pow2_le_mono; lia).
  change (2 ^ 64) with (2 ^ 32 * 2 ^ 32). change (2 ^ 31) with 2147483648 in *.
  change (2 ^ 32) with 4294967296 in *. nia.
Qed.

(** X6.  Below the last set, [next_cacheline] moves to the line that
    follows in memory: the recomposed address grows by one line size. *)
Theorem next_cacheline_advances_one_line a s l :
  32 <= tag_bits -> 32 <= idx_bits ->
  is_pow2 s -> s < 2 ^ 32 -> is_pow2 l -> l < 2 ^ 32 ->
  0 <= tag a -> 0 <= idx a < s - 1 -> tag a * s + idx a + 1 < 2 ^ 32 ->
  to_uint64 (next_cacheline a s) s l = to_uint64 a s l + l.
Proof.
  intros Ht Hi Hs Hs32 Hl Hl32 Htag Hidx Hfit.
  pose proof (is_pow2_pos s Hs) as Hspos.
  rewrite next_cacheline_inner by (done || lia).
  rewrite !to_uint64_value; cbn [tag idx]; try done; lia.
Qed.


(** * Further properties of construction *)

(** X7.  [init] looks at [sets] and [linesz] only.  When [sets] is a
    power of two and [linesz] a power of two that is at least 8 it
    builds an engine with these numbers, a tag array of [sets] rows of
    [ways] slots, every slot as the default constructor leaves it, and
    nothing counted; in every other case it ends in [help()]. *)
Theorem init_checks_geometry s w l nm pol :
  0 <= s -> 0 <= l ->
  (is_pow2 s /\ is_pow2 l /\ 8 <= l ->
   exists c, init s w l nm pol = Engine c /\
     sets c = s /\ ways c = w /\ linesz c = l /\
     length (tags c) = Z.to_nat s /\
     Forall (fun row => row = replicate (Z.to_nat w) addr_default) (tags c) /\
     perf_counter c = []) /\
  (~ (is_pow2 s /\ is_pow2 l /\ 8 <= l) -> init s w l nm pol = Usage).
Proof.
  intros Hs Hl. split.
  - intros (Hps & Hpl & Hl8). rewrite init_valid by done.
    eexists. split; [reflexivity|]. cbn.
    repeat split; [apply length_replicate|].
    apply Forall_replicate. reflexivity.
  - intros Hno. destruct (init s w l nm pol) as [|c] eqn:Hinit; [reflexivity|].
    exfalso. apply Hno. apply (init_Engine_iff s w l nm pol Hs Hl). eauto.
Qed.

(** X8.  The names [policy_is_valid] accepts are the five policy names,
    and they are the names for which [create_eviction_policy] returns a
    policy rather than a null pointer. *)
Theorem policy_name_known_iff s w pol :
  (policy_is_valid pol = true <->
   pol = "lfsr" \/ pol = "lru" \/ pol = "fifo" \/ pol = "lip" \/ pol = "bip") /\
  (policy_is_valid pol = true <-> exists p, create_eviction_policy s w pol = Some p).
Proof.
  split.
  - unfold policy_is_valid. rewrite !orb_true_iff, !String.eqb_eq. tauto.
  - split.
    + intros H. destruct (create_eviction_policy_valid s w pol H) as [k Hk]. eauto.
    + intros [p Hp]. destruct (policy_is_valid pol) eqn:Hv; [reflexivity|].
      rewrite create_eviction_policy_invalid in Hp by done. discriminate.
Qed.

Lemma strchr_split s c t :
  strchr s c = Some t ->
  exists pre t', s = pre +:+ String c t' /\ t = String c t' /\ strchr pre c = None.
Proof.
  induction s as [|a s IH]; cbn; [discriminate|].
  destruct (Ascii.eqb_spec a c) as [->|Hne].
  - intros [= <-]. exists EmptyString, s. auto.
  - intros H. destruct (IH H) as (pre & t' & -> & -> & Hpre).
    exists (String a pre), t'. cbn.
    destruct (Ascii.eqb_spec a c); [done|]. auto.
Qed.

(** The fields of a configuration string: each number is read from the
    characters up to its colon. *)
Lemma str_app_cons a s t : String a s +:+ t = String a (s +:+ t).
Proof. reflexivity. Qed.

Lemma str_length_app s t : String.length (s +:+ t) = (String.length s + String.length t)%nat.
Proof.
  induction s as [|a s IH]; [done|].
  rewrite str_app_cons. cbn [String.length]. by rewrite IH.
Qed.

Lemma str_take_app s t : str_take (String.length s) (s +:+ t) = s.
Proof.
  induction s as [|a s IH]; [by destruct t|].
  rewrite str_app_cons. cbn [String.length str_take]. by rewrite IH.
Qed.

Lemma str_app_assoc s a t : (s +:+ String a "") +:+ t = s +:+ String a t.
Proof.
  induction s as [|b s IH]; [done|].
  rewrite !str_app_cons. by rewrite IH.
Qed.

Lemma str_between_field s t : str_between (s +:+ String ":" t) t = s +:+ ":".
Proof.
  unfold str_between. rewrite <- (str_app_assoc s ":" t).
  rewrite str_length_app.
  replace (String.length (s +:+ ":") + String.length t - String.length t)%nat
    with (String.length (s +:+ ":")) by lia.
  apply str_take_app.
Qed.

Lemma atoi_digits_field s t acc : atoi_digits (s +:+ String ":" t) acc = atoi_digits s acc.
Proof.
  revert acc. induction s as [|a s IH]; intros acc; [done|].
  rewrite str_app_cons. cbn [atoi_digits].
  destruct (_ && _)%nat; [apply IH|done].
Qed.

Lemma skip_spaces_field s t :
  skip_spaces (s +:+ String ":" t) = skip_spaces s +:+ String ":" t.
Proof.
  induction s as [|a s IH]; [done|].
  rewrite str_app_cons. cbn [skip_spaces].
  destruct (is_space a); [apply IH|done].
Qed.

Lemma atoi_field s : atoi (s +:+ ":") = atoi s.
Proof.
  unfold atoi, strtol. rewrite skip_spaces_field.
  destruct (skip_spaces s) as [|a s']; [done|].
  rewrite str_app_cons.
  destruct a as [[] [] [] [] [] [] [] []];
    rewrite ?atoi_digits_field; try reflexivity;
    cbn [atoi_digits]; rewrite ?atoi_digits_field; reflexivity.
Qed.

(** [atoi] yields an [int]. *)
Lemma atoi_range s : - 2 ^ 31 <= atoi s < 2 ^ 31.
Proof. unfold atoi, to_int. pose proof (Z.mod_pos_bound (strtol s + 2 ^ 31) (2 ^ 32)). lia. Qed.

(** X9.  The constructor from a configuration string builds an engine
    only for a string of the form [sets:ways:blocksize:policy], with no
    colon in the three numbers and one of the five policy names after
    the third colon; the engine's sets, ways and line size are the
    [int] values that [atoi] reads from the three numbers, converted to
    [size_t]; the engine has a policy, a power of two of sets, lines of
    a power of two of at least 8 bytes, and a tag array of [sets] rows
    of [ways] slots. *)
Theorem cache_sim_of_config_accepts config nm c :
  cache_sim_of_config config nm = Engine c ->
  (exists s1 s2 s3 pol,
     config = s1 +:+ ":" +:+ s2 +:+ ":" +:+ s3 +:+ ":" +:+ pol /\
     strchr s1 ":" = None /\ strchr s2 ":" = None /\ strchr s3 ":" = None /\
     policy_is_valid pol = true /\
     sets c = wrap 64 (atoi s1) /\ ways c = wrap 64 (atoi s2) /\
     linesz c = wrap 64 (atoi s3)) /\
  is_pow2 (sets c) /\ is_pow2 (linesz c) /\ 8 <= linesz c /\
  (exists p, policy c = Some p) /\ tags_shape c.
Proof.
  intros Hc. pose proof (cache_sim_of_config_policy config nm c Hc) as Hpol.
  unfold cache_sim_of_config in Hc.
  destruct (strchr config ":") as [at_wp|] eqn:H1; [|discriminate].
  apply strchr_split in H1 as (s1 & wp & -> & -> & Hs1). cbn [str_next] in Hc.
  destruct (strchr wp ":") as [at_bp|] eqn:H2; [|discriminate].
  apply strchr_split in H2 as (s2 & bp & -> & -> & Hs2). cbn [str_next] in Hc.
  destruct (strchr bp ":") as [at_policy|] eqn:H3; [|discriminate].
  apply strchr_split in H3 as (s3 & pol & -> & -> & Hs3). cbn [str_next] in Hc.
  destruct (policy_is_valid pol) eqn:Hv; [|discriminate]. cbn [negb] in Hc.
  rewrite !str_between_field, !atoi_field in Hc.
  match type of Hc with init ?s ?w ?l _ _ = _ =>
    assert (Hs : 0 <= s) by (apply wrap_range; lia);
    assert (Hl : 0 <= l) by (apply wrap_range; lia);
    destruct (proj1 (init_Engine_iff s w l nm pol Hs Hl) (ex_intro _ c Hc))
      as (Hps & Hpl & Hl8);
    rewrite init_valid in Hc by done
  end.
  injection Hc as <-. cbn [sets linesz policy tags ways] in *.
  split; [exists s1, s2, s3, pol; repeat split; auto|].
  repeat split; try done.
  - apply length_replicate.
  - apply Forall_replicate, length_replicate.
Qed.

(** X10.  In a cache as the constructor leaves it every look-up misses. *)
Theorem fresh_cache_misses c a :
  fresh c -> 0 <= idx a < sets c -> check_tag c a = Done (-1).
Proof.
  intros Hf Hi. destruct (fresh_good c Hf) as ([(Hg & Hshape & _) _] & _ & Hinv).
  destruct Hg as (_ & _ & _ & _ & Hw).
  destruct (check_tag_cases c a Hshape ltac:(lia) Hi)
    as (row & Hrow & _ & [[_ H]|(i & e & Hfind & _)]); [exact H|].
  apply find_way_Some in Hfind as (Hie & (Hv & _)%addr_eq_inv & _).
  rewrite Forall_lookup in Hinv. specialize (Hinv _ _ Hrow).
  rewrite Forall_lookup in Hinv. rewrite (Hinv _ _ Hie) in Hv. discriminate.
Qed.


(** * Further properties of [access] *)

(** The two results of an access that returns, written out. *)
Lemma access_cases m (c : cache_sim_t) (mh : chain m) raw bytes store c1 mh1 :
  let addr := addr_of_raw raw (wrap 32 (sets c)) (wrap 32 (linesz c)) in
  good c -> access (S m) (c, mh) raw bytes store = Done (c1, mh1) ->
  exists p row,
    policy c = Some p /\ tags c !! Z.to_nat (idx addr) = Some row /\
    0 <= idx addr < sets c /\
    ((exists i e,
        find_way row addr = Some (i, e) /\ mh1 = mh /\
        c1 = mk_cache (sets c) (ways c) (linesz c)
               (if store
                then <[Z.to_nat (idx addr) := <[i := set_dirty e]> row]> (tags c)
                else tags c)
               (perf_counter c ++ [PerfAccess store bytes])
               (name c) (Some (policy_update p addr (Z.of_nat i)))) \/
     (exists victim,
        let way := (policy_next p (idx addr)).1 in
        let wb := valid victim && dirty victim in
        find_way row addr = None /\
        row !! Z.to_nat way = Some victim /\ 0 <= way < ways c /\
        c1 = mk_cache (sets c) (ways c) (linesz c)
               (<[Z.to_nat (idx addr) :=
                    <[Z.to_nat way := mk_addr true store (tag addr) (idx addr)]> row]>
                  (tags c))
               (perf_counter c ++ [PerfAccess store bytes; PerfMiss store]
                  ++ (if wb then [PerfWriteback] else []))
               (name c)
               (Some (policy_insert (policy_next p (idx addr)).2 (idx addr) way)))).
Proof.
  intros addr Hc Hacc.
  destruct (good_lookup c raw Hc) as
    (p & row & Hp & Hinv & Hi & Hrow & Hlen & Hndr & Hw & [[Hmiss Hct]|(i & e & Hfind & Hct & Hiw)]);
    try fold addr in Hi; try fold addr in Hrow; try fold addr in Hmiss;
    try fold addr in Hfind; try fold addr in Hct.
  - exists p, row. repeat (split; [done|]). right.
    pose proof (policy_next_range _ _ p _ Hinv Hi) as Hway.
    set (way := (policy_next p (idx addr)).1) in *.
    destruct (lookup_lt_is_Some_2 row (Z.to_nat way)) as [victim Hvic]; [lia|].
    assert (Hway31 : 0 <= way < 2 ^ 31) by lia.
    rewrite (access_miss m c mh raw bytes store p row victim Hp Hrow Hmiss Hvic Hway31) in Hacc.
    apply bind_Done in Hacc as (mh1' & _ & Hacc).
    apply bind_Done in Hacc as (mh2' & _ & Hacc).
    injection Hacc as <- <-. exists victim. cbv zeta. fold addr way.
    repeat (split; [done || lia|]). reflexivity.
  - exists p, row. repeat (split; [done|]). left. exists i, e.
    rewrite (access_hit m c mh raw bytes store (Z.of_nat i) p Hct ltac:(lia) Hp) in Hacc.
    fold addr in Hacc.
    pose proof Hfind as (Hie & _)%find_way_Some.
    split; [done|]. destruct store.
    + apply bind_Done in Hacc as (c' & Hm & Hacc). injection Hacc as <- <-.
      apply tags_modify_Done in Hm as (row' & e' & _ & _ & Hrow' & He' & ->).
      cbn [tags perf] in Hrow'. rewrite Nat2Z.id in *.
      assert (row' = row) as -> by congruence.
      assert (e' = e) as -> by congruence. split; reflexivity.
    + cbn in Hacc. injection Hacc as <- <-. split; reflexivity.
Qed.

(** X11.  From a chain of new caches no sequence of calls leads to a
    state on which [access] faults: in every reachable state, for every
    address, size and kind of access, the call returns, without an index
    outside the tag array or a call through a null policy, and the state
    it returns is well formed again. *)
Theorem access_never_faults n (h : chain n) raw bytes store :
  reachable n h ->
  exists h', access n h raw bytes store = Done h' /\
    reachable n h' /\ all_levels wf_cache n h'.
Proof.
  intros Hr. pose proof (reachable_good n h Hr) as Hg.
  destruct (access_good n h raw bytes store Hg) as (h' & Hacc & Hg').
  exists h'. split; [exact Hacc|]. split; [eapply reach_access; eauto|].
  clear -Hg'. induction n as [|m IH]; [done|].
  destruct Hg' as [[Hwf _] Hrest]. split; [exact Hwf|auto].
Qed.

(** X12.  After an access that returns, the line is in the cache: the
    look-up finds a slot that is valid, holds the tag of the address
    and, after a store, is dirty. *)
Theorem access_leaves_line_present m (c : cache_sim_t) (mh : chain m) raw bytes store c1 mh1 :
  let addr := addr_of_raw raw (wrap 32 (sets c)) (wrap 32 (linesz c)) in
  good c -> access (S m) (c, mh) raw bytes store = Done (c1, mh1) ->
  exists w e,
    check_tag c1 addr = Done w /\ 0 <= w /\
    tags_at c1 (idx addr) w = Done e /\
    valid e = true /\ tag e = tag addr /\
    (store = true -> dirty e = true).
Proof.
  intros addr Hc Hacc.
  pose proof Hc as [(Hg & [_ Hrows] & _) _].
  destruct Hg as (_ & _ & _ & _ & Hways).
  destruct (access_cases m c mh raw bytes store c1 mh1 Hc Hacc)
    as (p & row & Hp & Hrow & Hi & [(i & e & Hfind & -> & ->)|(victim & Hmiss & Hvic & Hway & ->)]);
    try fold addr in Hrow; try fold addr in Hi; try fold addr in Hfind;
    try fold addr in Hmiss; try fold addr in Hvic; try fold addr in Hway.
  - pose proof Hfind as (Hie & (Hv & _ & Ht)%addr_eq_inv & _)%find_way_Some.
    assert (Hlen : Z.of_nat i < 2 ^ 31).
    { rewrite Forall_lookup in Hrows. specialize (Hrows _ _ Hrow).
      apply lookup_lt_Some in Hie. lia. }
    assert (Hli : (Z.to_nat (idx addr) < length (tags c))%nat) by eauto using lookup_lt_Some.
    destruct store.
    + exists (Z.of_nat i), (set_dirty e). split; [|split; [lia|split]].
      * apply check_tag_Done. eexists. split; [lia|]. cbn [tags].
        split; [now apply list_lookup_insert_eq|].
        rewrite (find_way_set_dirty row addr i e Hfind).
        symmetry. apply to_int_small. lia.
      * apply tags_at_Done. eexists. split; [lia|]. split; [lia|]. cbn [tags].
        split; [now apply list_lookup_insert_eq|].
        rewrite Nat2Z.id. apply list_lookup_insert_eq. eauto using lookup_lt_Some.
      * cbn. auto.
    + exists (Z.of_nat i), e. split; [|split; [lia|split]].
      * apply check_tag_Done. exists row. split; [lia|]. split; [done|].
        rewrite Hfind. symmetry. apply to_int_small. lia.
      * apply tags_at_Done. exists row. rewrite Nat2Z.id. auto with lia.
      * split; [done|]. split; [done|]. discriminate.
  - set (way := (policy_next p (idx addr)).1) in *.
    assert (Hli : (Z.to_nat (idx addr) < length (tags c))%nat) by eauto using lookup_lt_Some.
    assert (Hlw : (Z.to_nat way < length row)%nat) by eauto using lookup_lt_Some.
    exists way, (mk_addr true store (tag addr) (idx addr)).
    split; [|split; [lia|split]].
    + apply check_tag_Done. eexists. split; [lia|]. cbn [tags].
      split; [now apply list_lookup_insert_eq|].
      rewrite (find_way_insert_fresh row addr (Z.to_nat way)); try done.
      rewrite Z2Nat.id by lia. symmetry. apply to_int_small. lia.
    + apply tags_at_Done. eexists. split; [lia|]. split; [lia|]. cbn [tags].
      split; [now apply list_lookup_insert_eq|]. now apply list_lookup_insert_eq.
    + cbn. auto.
Qed.

(** X13.  An access leaves the geometry and the name of the cache and
    every set but the one of the address as they are, and in that set it
    changes at most one slot. *)
Theorem access_other_sets_untouched m (c : cache_sim_t) (mh : chain m) raw bytes store c1 mh1 :
  let addr := addr_of_raw raw (wrap 32 (sets c)) (wrap 32 (linesz c)) in
  good c -> access (S m) (c, mh) raw bytes store = Done (c1, mh1) ->
  sets c1 = sets c /\ ways c1 = ways c /\ linesz c1 = linesz c /\ name c1 = name c /\
  (forall j, j <> Z.to_nat (idx addr) -> tags c1 !! j = tags c !! j) /\
  exists row row1 w,
    tags c !! Z.to_nat (idx addr) = Some row /\
    tags c1 !! Z.to_nat (idx addr) = Some row1 /\
    forall k, k <> w -> row1 !! k = row !! k.
Proof.
  intros addr Hc Hacc.
  destruct (access_cases m c mh raw bytes store c1 mh1 Hc Hacc)
    as (p & row & Hp & Hrow & Hi & [(i & e & Hfind & -> & ->)|(victim & Hmiss & Hvic & Hway & ->)]);
    try fold addr in Hrow; try fold addr in Hi; try fold addr in Hfind;
    try fold addr in Hmiss; try fold addr in Hvic; try fold addr in Hway; cbn [sets ways linesz name tags].
  - repeat (split; [reflexivity|]).
    assert (Hli : (Z.to_nat (idx addr) < length (tags c))%nat) by eauto using lookup_lt_Some.
    destruct store.
    + split; [intros j Hj; now apply list_lookup_insert_ne|].
      exists row, (<[i := set_dirty e]> row), i. split; [done|].
      split; [now apply list_lookup_insert_eq|].
      intros k Hk. now apply list_lookup_insert_ne.
    + split; [done|]. exists row, row, i. auto.
  - repeat (split; [reflexivity|]).
    assert (Hli : (Z.to_nat (idx addr) < length (tags c))%nat) by eauto using lookup_lt_Some.
    split; [intros j Hj; now apply list_lookup_insert_ne|].
    eexists row, _, (Z.to_nat (policy_next p (idx addr)).1). split; [done|].
    split; [now apply list_lookup_insert_eq|].
    intros k Hk. now apply list_lookup_insert_ne.
Qed.

(** X14.  An access counts itself once, first.  On a hit it counts
    nothing else and leaves the miss handler as it is; on a miss it
    counts one miss and, when the slot the policy names holds a valid
    and dirty line, one write-back after it.  It never counts a clean. *)
Theorem access_counts m (c : cache_sim_t) (mh : chain m) raw bytes store c1 mh1 :
  let addr := addr_of_raw raw (wrap 32 (sets c)) (wrap 32 (linesz c)) in
  good c -> access (S m) (c, mh) raw bytes store = Done (c1, mh1) ->
  exists h,
    check_tag c addr = Done h /\
    (0 <= h ->
     perf_counter c1 = perf_counter c ++ [PerfAccess store bytes] /\ mh1 = mh) /\
    (h < 0 ->
     exists p victim,
       policy c = Some p /\
       tags_at c (idx addr) (policy_next p (idx addr)).1 = Done victim /\
       perf_counter c1 =
         perf_counter c ++ [PerfAccess store bytes; PerfMiss store]
           ++ (if valid victim && dirty victim then [PerfWriteback] else [])).
Proof.
  intros addr Hc Hacc.
  pose proof Hc as [(Hg & [_ Hrows] & _) _].
  destruct Hg as (_ & _ & _ & _ & Hways).
  destruct (access_cases m c mh raw bytes store c1 mh1 Hc Hacc)
    as (p & row & Hp & Hrow & Hi & [(i & e & Hfind & -> & ->)|(victim & Hmiss & Hvic & Hway & ->)]);
    try fold addr in Hrow; try fold addr in Hi; try fold addr in Hfind;
    try fold addr in Hmiss; try fold addr in Hvic; try fold addr in Hway; cbn [perf_counter].
  - pose proof Hfind as (Hie%lookup_lt_Some & _)%find_way_Some.
    rewrite Forall_lookup in Hrows. specialize (Hrows _ _ Hrow).
    exists (Z.of_nat i). split; [|split; [auto|lia]].
    apply check_tag_Done. exists row. split; [lia|]. split; [done|].
    rewrite Hfind. symmetry. apply to_int_small. lia.
  - exists (-1). split; [|split; [lia|]].
    + apply check_tag_Done. exists row. split; [lia|]. split; [done|]. now rewrite Hmiss.
    + intros _. exists p, victim. split; [done|]. split; [|reflexivity].
      apply tags_at_Done. exists row. repeat split; (done || lia).
Qed.


(** * Further properties of [clean_invalidate] *)

Lemma addr_lt_irrefl a : addr_lt a a = false.
Proof.
  unfold addr_lt. rewrite !Z.ltb_irrefl, andb_false_r. cbn. apply andb_false_r.
Qed.

(** X15.  A range of no bytes is left alone by every level: the walk
    starts at its end. *)
Theorem clean_invalidate_empty_range n (h : chain n) addr clean inval :
  0 <= addr < 2 ^ 64 ->
  clean_invalidate n h addr 0 clean inval = Done h.
Proof.
  intros Ha. induction n as [|m IH]; [reflexivity|].
  destruct h as [c mh]. cbn [clean_invalidate fst snd].
  rewrite Z.add_0_r, (wrap_small 64 addr) by done.
  cbn [clean_loop]. rewrite addr_lt_irrefl. cbn [mbind outcome_bind].
  now rewrite IH.
Qed.

Lemma clean_line_nothing c a c' :
  clean_line c a false false = Done c' -> c' = c.
Proof.
  unfold clean_line. intros (h & _ & H)%bind_Done.
  destruct (0 <=? h); cbn in H; congruence.
Qed.

Lemma clean_loop_nothing fuel c cur_addr end_addr c' :
  clean_loop fuel c cur_addr end_addr false false = Done c' -> c' = c.
Proof.
  revert c cur_addr. induction fuel as [|fuel IH]; intros c cur_addr; cbn [clean_loop];
    destruct (addr_lt cur_addr end_addr); try congruence.
  intros (c1 & H1%clean_line_nothing & H)%bind_Done. subst c1. eauto.
Qed.

(** X16.  With neither cleaning nor invalidating asked for, a call that
    returns leaves every level exactly as it was, tag arrays, counters
    and policies. *)
Theorem clean_invalidate_nothing_requested n (h h' : chain n) addr bytes :
  clean_invalidate n h addr bytes false false = Done h' -> h' = h.
Proof.
  revert h h'. induction n as [|m IH]; intros h h'; cbn [clean_invalidate].
  - congruence.
  - destruct h as [c mh]. cbn [fst snd].
    intros (c1 & H1%clean_loop_nothing & H)%bind_Done.
    apply bind_Done in H as (mh1 & Hm%IH & [= <-]). congruence.
Qed.

(** *** Slots only lose flags *)

Lemma loses_flags_refl e : loses_flags e e.
Proof. unfold loses_flags. auto. Qed.

Lemma loses_flags_trans e1 e2 e3 :
  loses_flags e1 e2 -> loses_flags e2 e3 -> loses_flags e1 e3.
Proof. unfold loses_flags. intuition congruence. Qed.

Lemma tags_lose_flags_refl (t : list (list cache_sim_addr_t)) :
  Forall2 (Forall2 loses_flags) t t.
Proof.
  apply Forall_Forall2_diag, Forall_forall. intros row _.
  apply Forall_Forall2_diag, Forall_forall. intros e _. apply loses_flags_refl.
Qed.

Lemma row_lose_flags_trans (r1 r2 r3 : list cache_sim_addr_t) :
  Forall2 loses_flags r1 r2 -> Forall2 loses_flags r2 r3 -> Forall2 loses_flags r1 r3.
Proof.
  intros H12. revert r3.
  induction H12; intros r3 H23; inversion H23; subst; constructor;
    eauto using loses_flags_trans.
Qed.

Lemma tags_lose_flags_trans (t1 t2 t3 : list (list cache_sim_addr_t)) :
  Forall2 (Forall2 loses_flags) t1 t2 -> Forall2 (Forall2 loses_flags) t2 t3 ->
  Forall2 (Forall2 loses_flags) t1 t3.
Proof.
  intros H12. revert t3.
  induction H12; intros t3 H23; inversion H23; subst; constructor;
    eauto using row_lose_flags_trans.
Qed.

Lemma tags_modify_loses_flags c i w f c' :
  (forall e, loses_flags (f e) e) -> tags_modify c i w f = Done c' ->
  Forall2 (Forall2 loses_flags) (tags c') (tags c).
Proof.
  intros Hf (row & e & _ & _ & Hr & He & ->)%tags_modify_Done. cbn [tags with_tags].
  apply Forall2_same_length_lookup. split; [now rewrite length_insert|].
  intros j x y Hx Hy. destruct (decide (j = Z.to_nat i)) as [->|Hne].
  - rewrite list_lookup_insert_eq in Hx by eauto using lookup_lt_Some.
    assert (x = <[Z.to_nat w := f e]> row) as -> by congruence.
    assert (y = row) as -> by congruence.
    apply Forall2_same_length_lookup. split; [now rewrite length_insert|].
    intros k x y Hx' Hy'. destruct (decide (k = Z.to_nat w)) as [->|Hnk].
    + rewrite list_lookup_insert_eq in Hx' by eauto using lookup_lt_Some.
      assert (x = f e) as -> by congruence.
      assert (y = e) as -> by congruence. apply Hf.
    + rewrite list_lookup_insert_ne in Hx' by done.
      assert (x = y) as -> by congruence. apply loses_flags_refl.
  - rewrite list_lookup_insert_ne in Hx by done.
    assert (x = y) as -> by congruence.
    apply Forall_Forall2_diag, Forall_forall. intros e0 _. apply loses_flags_refl.
Qed.

Lemma set_clean_loses e : loses_flags (set_clean e) e.
Proof. unfold loses_flags. cbn. repeat split; auto; discriminate. Qed.

Lemma set_invalid_loses e : loses_flags (set_invalid e) e.
Proof. unfold loses_flags. cbn. repeat split; auto; discriminate. Qed.

Lemma cleared_refl clean c : cleared clean c c.
Proof.
  unfold cleared. repeat (split; [reflexivity|]).
  split; [apply tags_lose_flags_refl|].
  exists 0%nat. cbn. now rewrite app_nil_r.
Qed.

Lemma cleared_trans clean c1 c2 c3 :
  cleared clean c1 c2 -> cleared clean c2 c3 -> cleared clean c1 c3.
Proof.
  intros (Hs & Hw & Hl & Hn & Hp & Ht & k & Hk & Hk0)
         (Hs' & Hw' & Hl' & Hn' & Hp' & Ht' & k' & Hk' & Hk0').
  unfold cleared. repeat (split; [congruence|]).
  split; [eauto using tags_lose_flags_trans|].
  exists (k + k')%nat. split; [|intros Hc; rewrite Hk0, Hk0' by done; reflexivity].
  rewrite Hk', Hk, <- app_assoc. f_equal.
  now rewrite replicate_add, concat_app.
Qed.

Lemma clean_line_cleared c a clean inval c' :
  clean_line c a clean inval = Done c' -> cleared clean c c'.
Proof.
  unfold clean_line. intros (h & _ & H)%bind_Done.
  destruct (0 <=? h); [|injection H as <-; apply cleared_refl].
  apply bind_Done in H as (c1 & H1 & H).
  apply (cleared_trans clean c c1 c').
  - destruct clean; [|injection H1 as <-; apply cleared_refl].
    apply bind_Done in H1 as (e & _ & H1).
    destruct (is_dirty e); [|injection H1 as <-; apply cleared_refl].
    pose proof (tags_modify_loses_flags _ _ _ _ _ set_clean_loses H1) as Ht.
    apply tags_modify_Done in H1 as (row & e' & _ & _ & _ & _ & ->).
    unfold cleared. cbn in *. repeat (split; [reflexivity|]).
    split; [exact Ht|]. exists 1%nat. split; [|discriminate].
    cbn. now rewrite <- app_assoc.
  - destruct inval; [|injection H as <-; apply cleared_refl].
    pose proof (tags_modify_loses_flags _ _ _ _ _ set_invalid_loses H) as Ht.
    apply tags_modify_Done in H as (row & e' & _ & _ & _ & _ & ->).
    unfold cleared. cbn in *. repeat (split; [reflexivity|]).
    split; [exact Ht|]. exists 0%nat. cbn. now rewrite app_nil_r.
Qed.

Lemma clean_loop_cleared fuel c cur_addr end_addr clean inval c' :
  clean_loop fuel c cur_addr end_addr clean inval = Done c' -> cleared clean c c'.
Proof.
  revert c cur_addr. induction fuel as [|fuel IH]; intros c cur_addr; cbn [clean_loop];
    destruct (addr_lt cur_addr end_addr); try discriminate;
    try (intros [= <-]; apply cleared_refl).
  intros (c1 & H1%clean_line_cleared & H%IH)%bind_Done.
  eauto using cleared_trans.
Qed.

Lemma clean_invalidate_cleared n (h h' : chain n) addr bytes clean inval :
  clean_invalidate n h addr bytes clean inval = Done h' ->
  levels_rel (cleared clean) n h h'.
Proof.
  revert h h'. induction n as [|m IH]; intros h h'; [done|].
  destruct h as [c mh]. cbn [clean_invalidate fst snd].
  intros (c1 & H1%clean_loop_cleared & H)%bind_Done.
  apply bind_Done in H as (mh1 & Hm%IH & [= <-]). split; assumption.
Qed.

Lemma levels_rel_impl (R R' : cache_sim_t -> cache_sim_t -> Prop) n (h h' : chain n) :
  (forall c c', R c c' -> R' c c') -> levels_rel R n h h' -> levels_rel R' n h h'.
Proof.
  intros HR. induction n as [|m IH]; [done|].
  intros [H1 H2]. split; auto.
Qed.

(** X17.  A call of [clean_invalidate] that returns has, at every
    level, only cleared flags: every slot keeps its tag and set index,
    no slot becomes valid or dirty, and geometry, name and policy of the
    cache are as before. *)
Theorem clean_invalidate_only_clears_flags n (h h' : chain n) addr bytes clean inval :
  clean_invalidate n h addr bytes clean inval = Done h' ->
  levels_rel (fun c c' =>
    sets c' = sets c /\ ways c' = ways c /\ linesz c' = linesz c /\
    name c' = name c /\ policy c' = policy c /\
    Forall2 (Forall2 loses_flags) (tags c') (tags c)) n h h'.
Proof.
  intros H%clean_invalidate_cleared. revert H. apply levels_rel_impl.
  intros c c' (Hs & Hw & Hl & Hn & Hp & Ht & _). auto 10.
Qed.

(** X18.  A call of [clean_invalidate] that returns counts, at every
    level, write-backs and cleans in pairs and nothing else, and it
    counts nothing at all when cleaning is not asked for: invalidating
    alone drops dirty lines without a write-back. *)
Theorem clean_invalidate_counts_pairs n (h h' : chain n) addr bytes clean inval :
  clean_invalidate n h addr bytes clean inval = Done h' ->
  levels_rel (fun c c' =>
    exists k : nat,
      perf_counter c' =
        perf_counter c ++ concat (replicate k [PerfWriteback; PerfClean]) /\
      (clean = false -> perf_counter c' = perf_counter c)) n h h'.
Proof.
  intros H%clean_invalidate_cleared. revert H. apply levels_rel_impl.
  intros c c' (_ & _ & _ & _ & _ & _ & k & Hk & Hk0).
  exists k. split; [exact Hk|]. intros Hc. rewrite Hk, (Hk0 Hc). cbn. apply app_nil_r.
Qed.


(** *** A range within one tag *)

Lemma good_perf c e : good c -> good (perf c e).
Proof.
  intros Hc. apply (good_fade_same c); try reflexivity; [exact Hc|apply rows_fade_refl].
Qed.

Lemma tags_modify_good_total c i w f :
  good c -> 0 <= i < sets c -> 0 <= w < ways c ->
  exists c', tags_modify c i w f = Done c'.
Proof.
  intros [(_ & [Hlen Hrows] & _) _] Hi Hw.
  destruct (lookup_lt_is_Some_2 (tags c) (Z.to_nat i)) as [row Hrow]; [lia|].
  rewrite Forall_lookup in Hrows. specialize (Hrows _ _ Hrow).
  destruct (lookup_lt_is_Some_2 row (Z.to_nat w)) as [e He]; [lia|].
  eexists. apply tags_modify_Done. exists row, e. repeat split; (done || lia).
Qed.

(** For a line whose set index is in range the body of the loop returns. *)
Lemma clean_line_Done c a clean inval :
  good c -> 0 <= idx a < sets c -> exists c', clean_line c a clean inval = Done c'.
Proof.
  intros Hc Hi. pose proof Hc as [(Hg & Hshape & _) _].
  destruct Hg as (_ & _ & _ & _ & Hw).
  destruct (check_tag_cases c a Hshape ltac:(lia) Hi)
    as (row & Hrow & Hlen & [[_ Hct]|(i & e & Hfind & Hct & Hiw)]).
  { exists c. apply (clean_line_miss c a clean inval (-1)); [done|lia]. }
  pose proof Hfind as (Hie & _)%find_way_Some.
  unfold clean_line. rewrite Hct. cbn [mbind outcome_bind].
  destruct (Z.leb_spec 0 (Z.of_nat i)); [|lia].
  assert (exists c1, (if clean
            then e0 ← tags_at c (idx a) (Z.of_nat i);
                 (if is_dirty e0
                  then tags_modify (perf (perf c PerfWriteback) PerfClean)
                         (idx a) (Z.of_nat i) set_clean
                  else Done c)
            else Done c) = Done c1 /\ good c1 /\ sets c1 = sets c /\ ways c1 = ways c)
    as (c1 & -> & Hc1 & Hs1 & Hw1).
  { destruct clean; [|eauto].
    assert (tags_at c (idx a) (Z.of_nat i) = Done e) as ->.
    { apply tags_at_Done. exists row. rewrite Nat2Z.id. repeat split; (done || lia). }
    cbn [mbind outcome_bind]. destruct (is_dirty e); [|eauto].
    destruct (tags_modify_good_total (perf (perf c PerfWriteback) PerfClean)
                (idx a) (Z.of_nat i) set_clean) as [c1 H1];
      [auto using good_perf|done|cbn; lia|].
    exists c1. split; [exact H1|].
    pose proof (tags_modify_fades _ _ _ _ _ set_clean_fades H1) as (Hf & Hs & Hww & Hl & _ & Hp & _).
    split; [|split; [exact Hs|exact Hww]].
    apply (good_fade_same (perf (perf c PerfWriteback) PerfClean)); done. }
  cbn [mbind outcome_bind]. destruct inval; [|eauto].
  apply tags_modify_good_total; [done|lia|lia].
Qed.

(** A slot replaced in place by one with the same validity and tag is
    still the slot found. *)
Lemma find_way_modify_same row a i e e' :
  find_way row a = Some (i, e) -> valid e' = valid e -> tag e' = tag e ->
  find_way (<[i := e']> row) a = Some (i, e').
Proof.
  intros (Hi & He & Hfirst)%find_way_Some Hv Ht. apply find_way_Some. split; [|split].
  - apply list_lookup_insert_eq. eauto using lookup_lt_Some.
  - unfold addr_eq in *. now rewrite Hv, Ht.
  - intros j y Hj Hlt. rewrite list_lookup_insert_ne in Hj by lia. eauto.
Qed.

(** The body of the loop changes the row of its line only. *)
Lemma clean_line_frame c a clean inval c' :
  clean_line c a clean inval = Done c' ->
  forall j, j <> Z.to_nat (idx a) -> tags c' !! j = tags c !! j.
Proof.
  unfold clean_line. intros (h & _ & H)%bind_Done j Hj.
  destruct (0 <=? h); [|congruence].
  apply bind_Done in H as (c1 & H1 & H).
  assert (H1j : tags c1 !! j = tags c !! j).
  { destruct clean; [|congruence].
    apply bind_Done in H1 as (e & _ & H1). destruct (is_dirty e); [|congruence].
    apply tags_modify_Done in H1 as (row & e' & _ & _ & _ & _ & ->).
    cbn [tags with_tags perf]. now apply list_lookup_insert_ne. }
  rewrite <- H1j. destruct inval; [|congruence].
  apply tags_modify_Done in H as (row & e' & _ & _ & _ & _ & ->).
  cbn [tags with_tags]. now apply list_lookup_insert_ne.
Qed.

(** The look-up reads the row of the line, and of the address its
    validity, tag and set index. *)
Lemma check_tag_row c c' a a' :
  tags c' !! Z.to_nat (idx a) = tags c !! Z.to_nat (idx a) ->
  valid a' = valid a -> tag a' = tag a -> idx a' = idx a ->
  check_tag c' a' = check_tag c a.
Proof.
  intros Hrow Hv Ht Hi. unfold check_tag, vec_at. rewrite Hi, Hrow.
  destruct (idx a <? 0); [reflexivity|].
  destruct (tags c !! Z.to_nat (idx a)) as [row|]; [|reflexivity].
  cbn [mbind outcome_bind]. unfold find_way, addr_eq. rewrite Hv, Ht. reflexivity.
Qed.

Lemma tags_at_row c c' i w :
  tags c' !! Z.to_nat i = tags c !! Z.to_nat i -> tags_at c' i w = tags_at c i w.
Proof. intros H. unfold tags_at, vec_at. now rewrite H. Qed.

(** After a line was invalidated it is absent, cleaned before or not. *)
Lemma clean_line_absent_inval c a clean c' :
  good c -> clean_line c a clean true = Done c' -> check_tag c' a = Done (-1).
Proof.
  intros Hc Hcl. pose proof Hcl as Hcl0.
  unfold clean_line in Hcl. apply bind_Done in Hcl as (h & Hct & H).
  destruct (Z.leb_spec 0 h) as [Hh|Hh].
  2:{ injection H as <-.
      destruct (check_tag_miss c a h Hc Hct Hh) as (-> & _). exact Hct. }
  destruct (check_tag_hit c a h Hc Hct Hh) as (row & e & Hrow & Hfind & Hndr).
  apply clean_line_fades in Hcl0 as (Hf & _).
  apply bind_Done in H as (c1 & _ & H).
  apply tags_modify_Done in H as (row1 & e1 & Hi & _ & Hrow1 & He1 & ->).
  cbn [tags with_tags] in *.
  assert (Hl1 : (Z.to_nat (idx a) < length (tags c1))%nat) by eauto using lookup_lt_Some.
  assert (Hl2 : (Z.to_nat h < length row1)%nat) by eauto using lookup_lt_Some.
  apply check_tag_Done. eexists. split; [done|].
  split; [now apply list_lookup_insert_eq|].
  set (row' := <[Z.to_nat h := set_invalid e1]> row1).
  assert (Hrf : Forall2 fades row' row).
  { destruct (Forall2_lookup_r _ _ _ _ _ Hf Hrow) as (r & Hr & Hrf).
    rewrite list_lookup_insert_eq in Hr by done. injection Hr as <-. exact Hrf. }
  assert (Hnone : find_way row' a = None).
  { apply find_way_None, Forall_lookup. intros j y Hj Hy.
    destruct (Forall2_lookup_l _ _ _ _ _ Hrf Hj) as (y0 & Hy0 & Hfy).
    pose proof (addr_eq_fades _ _ _ Hfy Hy) as Hy0a.
    pose proof (find_way_unique row a _ e j y0 Hndr Hfind Hy0 Hy0a) as ->.
    subst row'. rewrite list_lookup_insert_eq in Hj by done.
    injection Hj as <-. apply addr_eq_inv in Hy as (Hv & _). discriminate Hv. }
  now rewrite Hnone.
Qed.

(** After a line was cleaned, the slot that holds it, if any, is not
    dirty. *)
Lemma clean_line_cleaned c a inval c' w e :
  good c -> clean_line c a true inval = Done c' ->
  check_tag c' a = Done w -> 0 <= w -> tags_at c' (idx a) w = Done e ->
  dirty e = false.
Proof.
  intros Hc Hcl Hct' Hw He'.
  destruct inval.
  { rewrite (clean_line_absent_inval c a true c' Hc Hcl) in Hct'.
    injection Hct' as <-. lia. }
  unfold clean_line in Hcl. apply bind_Done in Hcl as (h & Hct & H).
  destruct (Z.leb_spec 0 h) as [Hh|Hh].
  2:{ injection H as <-. rewrite Hct in Hct'. injection Hct' as <-. lia. }
  destruct (check_tag_hit c a h Hc Hct Hh) as (row & e0 & Hrow & Hfind & _).
  pose proof Hfind as (Hie & _)%find_way_Some.
  apply bind_Done in H as (c1 & H1 & [= <-]).
  apply bind_Done in H1 as (e1 & He1 & H1).
  apply tags_at_Done in He1 as (row1 & _ & _ & Hrow1 & Hie1).
  assert (row1 = row) as -> by congruence.
  assert (e1 = e0) as -> by congruence.
  destruct (is_dirty e0) eqn:Hd.
  - apply tags_modify_Done in H1 as (row2 & e2 & Hi & _ & Hrow2 & He2 & ->).
    cbn [tags perf] in Hrow2.
    assert (row2 = row) as -> by congruence.
    assert (e2 = e0) as -> by congruence.
    assert (Hli : (Z.to_nat (idx a) < length (tags c))%nat) by eauto using lookup_lt_Some.
    apply check_tag_Done in Hct' as (r & _ & Hr & ->).
    cbn [tags with_tags perf] in Hr. rewrite list_lookup_insert_eq in Hr by done.
    injection Hr as <-.
    rewrite (find_way_modify_same row a (Z.to_nat h) e0 (set_clean e0) Hfind) in * by reflexivity.
    apply tags_at_Done in He' as (r & _ & _ & Hr & He').
    cbn [tags with_tags perf] in Hr. rewrite list_lookup_insert_eq in Hr by done.
    injection Hr as <-.
    pose proof Hct as (r0 & _ & Hr0 & Hh0)%check_tag_Done.
    assert (r0 = row) as -> by congruence. rewrite Hfind in Hh0.
    rewrite <- Hh0 in He'.
    rewrite list_lookup_insert_eq in He' by eauto using lookup_lt_Some.
    injection He' as <-. reflexivity.
  - injection H1 as <-. rewrite Hct in Hct'. injection Hct' as <-.
    apply tags_at_Done in He' as (r & _ & _ & Hr & He').
    assert (r = row) as -> by congruence.
    assert (e = e0) as -> by congruence. exact Hd.
Qed.


(** The walk from one set index to a later one under one tag. *)
Lemma clean_loop_within fuel c cur_addr end_addr clean inval :
  32 <= idx_bits -> good c ->
  valid cur_addr = true -> valid end_addr = true -> tag cur_addr = tag end_addr ->
  0 <= idx cur_addr <= idx end_addr -> idx end_addr < sets c ->
  (Z.to_nat (idx end_addr - idx cur_addr) <= fuel)%nat ->
  exists c',
    clean_loop fuel c cur_addr end_addr clean inval = Done c' /\ good c' /\
    sets c' = sets c /\
    (forall j, ~ (Z.to_nat (idx cur_addr) <= j < Z.to_nat (idx end_addr))%nat ->
       tags c' !! j = tags c !! j) /\
    (inval = true -> forall a,
       valid a = true -> tag a = tag end_addr ->
       idx cur_addr <= idx a < idx end_addr ->
       check_tag c' a = Done (-1)) /\
    (clean = true -> forall a w e,
       valid a = true -> tag a = tag end_addr ->
       idx cur_addr <= idx a < idx end_addr ->
       check_tag c' a = Done w -> 0 <= w -> tags_at c' (idx a) w = Done e ->
       dirty e = false).
Proof.
  intros Hbits. revert c cur_addr.
  induction fuel as [|fuel IH]; intros c cur Hc Hvc Hve Htag Hidx Hend Hfuel.
  - assert (idx cur = idx end_addr) as Heq by lia.
    cbn [clean_loop]. unfold addr_lt. rewrite Heq, Z.ltb_irrefl, andb_false_r, orb_false_r.
    rewrite Htag, Z.ltb_irrefl, andb_false_r.
    exists c. split; [reflexivity|]. split; [exact Hc|]. split; [reflexivity|].
    split; [intros; reflexivity|]. split; intros; lia.
  - destruct (Z.eq_dec (idx cur) (idx end_addr)) as [Heq|Hne].
    { cbn [clean_loop]. unfold addr_lt.
      rewrite Heq, Z.ltb_irrefl, andb_false_r, orb_false_r.
      rewrite Htag, Z.ltb_irrefl, andb_false_r.
      exists c. split; [reflexivity|]. split; [exact Hc|]. split; [reflexivity|].
    split; [intros; reflexivity|]. split; intros; lia. }
    assert (Hlt : addr_lt cur end_addr = true).
    { unfold addr_lt. rewrite Hvc, Hve, Htag, Z.eqb_refl. cbn [andb].
      apply orb_true_iff. right. apply Z.ltb_lt. lia. }
    cbn [clean_loop]. rewrite Hlt.
    destruct (clean_line_Done c cur clean inval Hc ltac:(lia)) as [c1 H1].
    rewrite H1. cbn [mbind outcome_bind].
    pose proof (clean_line_good _ _ _ _ _ Hc H1) as Hc1.
    pose proof (clean_line_fades _ _ _ _ _ H1) as (_ & Hs1 & _).
    pose proof Hc as [(Hg & _) _]. destruct Hg as (Hps & Hs32 & _).
    pose proof (is_pow2_pos _ Hps) as Hspos.
    rewrite Hs1, (wrap_small 32 (sets c)) by lia.
    rewrite next_cacheline_inner by lia.
    set (nxt := mk_addr (valid cur) (dirty cur) (tag cur) (idx cur + 1)).
    destruct (IH c1 nxt Hc1 Hvc Hve Htag) as (c' & Hloop & Hc' & Hs' & Hframe & Hinv & Hcl);
      [cbn; lia|lia|cbn; lia|].
    exists c'. split; [exact Hloop|]. split; [exact Hc'|]. split; [congruence|].
    cbn [idx nxt] in Hframe, Hinv, Hcl.
    assert (Hrowcur : tags c' !! Z.to_nat (idx cur) = tags c1 !! Z.to_nat (idx cur)).
    { apply Hframe. lia. }
    split; [|split].
    + intros j Hj. rewrite Hframe by lia.
      apply (clean_line_frame _ _ _ _ _ H1). lia.
    + intros -> a Hva Hta Hia.
      destruct (Z.eq_dec (idx a) (idx cur)) as [Hac|Hac]; [|apply Hinv; (done || lia)].
      rewrite <- (clean_line_absent_inval c cur clean c1 Hc H1).
      apply check_tag_row; congruence.
    + intros -> a w e Hva Hta Hia Hct Hw He.
      destruct (Z.eq_dec (idx a) (idx cur)) as [Hac|Hac];
        [|apply (Hcl eq_refl a w e); (done || lia)].
      apply (clean_line_cleaned c cur inval c1 w e Hc H1); [|done|].
      * rewrite <- Hct. symmetry. apply check_tag_row; congruence.
      * rewrite <- He, Hac. symmetry. now apply tags_at_row.
Qed.

(** X19.  A range whose first and last byte addresses decompose to the
    same tag, the set index of the end not below that of the start, is
    handled as follows by a well formed cache: the call returns (given
    that the miss handler's does); the lines from the line of the start
    up to, not including, the line of the end are absent afterwards when
    invalidating was asked for and not dirty when cleaning was; and the
    rows of all other sets are as before. *)
Theorem clean_invalidate_within_tag m (c : cache_sim_t) (mh mh' : chain m) addr bytes clean inval :
  let cur_addr := addr_of_raw addr (wrap 32 (sets c)) (wrap 32 (linesz c)) in
  let end_addr := addr_of_raw (wrap 64 (addr + bytes)) (wrap 32 (sets c)) (wrap 32 (linesz c)) in
  32 <= idx_bits -> good c ->
  tag cur_addr = tag end_addr -> idx cur_addr <= idx end_addr ->
  clean_invalidate m mh addr bytes clean inval = Done mh' ->
  exists c',
    clean_invalidate (S m) (c, mh) addr bytes clean inval = Done (c', mh') /\
    good c' /\
    (forall j, ~ (Z.to_nat (idx cur_addr) <= j < Z.to_nat (idx end_addr))%nat ->
       tags c' !! j = tags c !! j) /\
    (inval = true -> forall a,
       valid a = true -> tag a = tag cur_addr ->
       idx cur_addr <= idx a < idx end_addr ->
       check_tag c' a = Done (-1)) /\
    (clean = true -> forall a w e,
       valid a = true -> tag a = tag cur_addr ->
       idx cur_addr <= idx a < idx end_addr ->
       check_tag c' a = Done w -> 0 <= w -> tags_at c' (idx a) w = Done e ->
       dirty e = false).
Proof.
  intros cur_addr end_addr Hbits Hc Htag Hidx Hmh.
  pose proof Hc as [(Hg & [Hlen _] & _) _]. destruct Hg as (Hps & Hs32 & _).
  pose proof (addr_of_raw_idx_range addr (sets c) (wrap 32 (linesz c)) Hps Hs32) as Hic.
  pose proof (addr_of_raw_idx_range (wrap 64 (addr + bytes)) (sets c) (wrap 32 (linesz c)) Hps Hs32) as Hie.
  fold cur_addr in Hic. fold end_addr in Hie.
  destruct (clean_loop_within (S (length (tags c))) c cur_addr end_addr clean inval Hbits Hc)
    as (c' & Hloop & Hc' & _ & Hframe & Hinv & Hcl); try done; try lia.
  exists c'. split.
  - cbn [clean_invalidate fst snd]. fold cur_addr end_addr.
    rewrite Hloop. cbn [mbind outcome_bind]. now rewrite Hmh.
  - split; [exact Hc'|]. split; [exact Hframe|]. rewrite Htag. split; assumption.
Qed.

End Simulator.

(** * The engine on concrete caches

    The caches below are built by the constructor with the round-robin
    policy; the fields [tag] and [idx] have 64 bits (and, where it is
    said, 32). *)

(** The caches that [cache_sim_new 4 1 64 "L1" "lru"] and
    [cache_sim_new 8 2 64 "L2" "lru"] build. *)
Local Abbreviation l1_new :=
  (mk_cache (P := round_robin) 4 1 64 (replicate 4 [addr_default]) [] "L1"
     (Some (mk_rr 1 0))).
Local Abbreviation l2_new :=
  (mk_cache (P := round_robin) 8 2 64 (replicate 8 [addr_default; addr_default]) [] "L2"
     (Some (mk_rr 2 0))).

Ltac pow2 k := exists k; split; [lia | reflexivity].

Lemma geometry_4_1_64 : valid_geometry 4 1 64.
Proof. unfold valid_geometry. split; [pow2 2|]. split; [lia|]. split; [pow2 6|]. lia. Qed.

Lemma geometry_8_2_64 : valid_geometry 8 2 64.
Proof. unfold valid_geometry. split; [pow2 3|]. split; [lia|]. split; [pow2 6|]. lia. Qed.

(** C2, at a range that crosses the last set twice.  Four sets, one
    way, lines of 64 bytes: [clean_invalidate(0, 512, true, true)] walks
    sets 0 to 3 of tag 0, then steps to tag 1 with set index 4 and looks
    that row up: an index outside the tag array. *)
Theorem clean_invalidate_out_of_bounds :
  exists c : cache_sim_t (P := round_robin),
    cache_sim_new 4 1 64 "L1" "lru" = Engine c /\
    wf_cache c /\
    clean_invalidate 64 64 1 (c, tt) 0 512 true true = Fault OutOfBounds /\
    clean_invalidate 32 32 1 (c, tt) 0 512 true true = Fault OutOfBounds.
Proof.
  eexists. split; [reflexivity|]. split.
  - eapply fresh_good, (cache_sim_new_fresh 4 1 64 "L1" "lru");
      [apply geometry_4_1_64|reflexivity..].
  - split; vm_compute; reflexivity.
Qed.

(** C3, at ranges with lines that are not processed.  Four sets, one
    way, lines of 64 bytes.  After the store [access(0, 8, true)] line 0
    is valid and dirty; [clean_invalidate(0, 8, true, true)] covers
    bytes 0 to 7 of it and leaves the cache as it is: the walk stops
    before the line of the end address.  After the store
    [access(256, 8, true)] the line at 256 (tag 1, set 0) is valid and
    dirty; [clean_invalidate(192, 128, true, true)] covers the lines at
    192 and at 256 and leaves the cache as it is: after set 3 the walk
    is at set index 4 and stops. *)
Theorem clean_invalidate_skips_lines :
  exists (c : cache_sim_t (P := round_robin)) (h1 h2 : chain 1),
    cache_sim_new 4 1 64 "L1" "lru" = Engine c /\
    access 64 64 1 (c, tt) 0 8 true = Done h1 /\
    tags_at h1.1 0 0 = Done (mk_addr true true 0 0) /\
    clean_invalidate 64 64 1 h1 0 8 true true = Done h1 /\
    access 64 64 1 (c, tt) 256 8 true = Done h2 /\
    tags_at h2.1 0 0 = Done (mk_addr true true 1 0) /\
    clean_invalidate 64 64 1 h2 192 128 true true = Done h2.
Proof.
  eexists _, _, _. split; [reflexivity|].
  split; [vm_compute; reflexivity|]. split; [reflexivity|].
  split; [vm_compute; reflexivity|].
  split; [vm_compute; reflexivity|]. split; [reflexivity|].
  vm_compute; reflexivity.
Qed.

(** C8, at a range that reaches the last set.  Four sets, one way,
    lines of 64 bytes, no miss handler.  After the store
    [access(0, 8, true)], a state reached from a new cache, the first of
    two calls [clean_invalidate(0, 512, true, true)] walks the sets 0 to
    3 and then reads [tags[4]] of a vector of four rows: the call has no
    result, and there is no state after it that the second call could
    leave as it is.  The range of 256 bytes, which ends at the last set,
    is still walked, and there the second call changes nothing. *)
Theorem clean_invalidate_twice_out_of_bounds :
  exists (c : cache_sim_t (P := round_robin)) (h h1 : chain 1),
    cache_sim_new 4 1 64 "L1" "lru" = Engine c /\
    access 64 64 1 (c, tt) 0 8 true = Done h /\
    reachable 64 64 1 h /\
    tags_at h.1 0 0 = Done (mk_addr true true 0 0) /\
    clean_invalidate 64 64 1 h 0 512 true true = Fault OutOfBounds /\
    (forall h2, clean_invalidate 64 64 1 h 0 512 true true <> Done h2) /\
    clean_invalidate 64 64 1 h 0 256 true true = Done h1 /\
    clean_invalidate 64 64 1 h1 0 256 true true = Done h1.
Proof.
  exists l1_new. eexists _, _. split; [reflexivity|].
  split; [vm_compute; reflexivity|].
  split.
  { apply (reach_access 64 64 1 (l1_new, tt) 0 8 true); [|vm_compute; reflexivity].
    apply reach_fresh. split; [|exact I].
    apply (cache_sim_new_fresh 4 1 64 "L1" "lru"); [apply geometry_4_1_64|reflexivity..]. }
  split; [reflexivity|].
  split; [vm_compute; reflexivity|].
  split; [intros h2 H; vm_compute in H; discriminate|].
  split; [vm_compute; reflexivity|]. vm_compute; reflexivity.
Qed.

(** Where the range ends on a line boundary and stays below the last
    set, the dirty line is written back, cleaned and invalidated. *)
Example clean_invalidate_whole_line :
  exists (c : cache_sim_t (P := round_robin)) (h1 h2 : chain 1),
    cache_sim_new 4 1 64 "L1" "lru" = Engine c /\
    access 64 64 1 (c, tt) 0 8 true = Done h1 /\
    clean_invalidate 64 64 1 h1 0 64 true true = Done h2 /\
    tags_at h2.1 0 0 = Done (mk_addr false false 0 0) /\
    perf_counter h2.1 = [PerfAccess true 8; PerfMiss true; PerfWriteback; PerfClean].
Proof.
  eexists _, _, _. split; [reflexivity|].
  split; [vm_compute; reflexivity|].
  split; [vm_compute; reflexivity|]. split; reflexivity.
Qed.

(** A store to line 0, then a load of the line at 256, which falls into
    the same set of the one-way first level: the dirty line 0 is the
    victim.  The first level counts two misses and one write-back; the
    second level sees the fill of line 0 (a miss), the write-back of
    line 0 as a store (a hit, which leaves it dirty there) and the fill
    of the line at 256 (a miss). *)
Example dirty_victim_written_back :
  exists (h1 h2 : chain 2),
    access 64 64 2 (l1_new, (l2_new, tt)) 0 8 true = Done h1 /\
    access 64 64 2 h1 256 8 false = Done h2 /\
    perf_counter h2.1 =
      [PerfAccess true 8; PerfMiss true; PerfAccess false 8; PerfMiss false;
       PerfWriteback] /\
    perf_counter h2.2.1 =
      [PerfAccess false 64; PerfMiss false; PerfAccess true 64;
       PerfAccess false 64; PerfMiss false] /\
    tags_at h2.2.1 0 0 = Done (mk_addr true true 0 0).
Proof.
  eexists _, _. split; [vm_compute; reflexivity|].
  split; [vm_compute; reflexivity|]. repeat split.
Qed.

(** ** Instances of the theorems *)

Lemma l1_fresh :
  cache_sim_new 4 1 64 "L1" "lru" = Engine l1_new /\ fresh l1_new.
Proof.
  split; [reflexivity|].
  apply (cache_sim_new_fresh 4 1 64 "L1" "lru"); [apply geometry_4_1_64|reflexivity..].
Qed.

Lemma l2_fresh :
  cache_sim_new 8 2 64 "L2" "lru" = Engine l2_new /\ fresh l2_new.
Proof.
  split; [reflexivity|].
  apply (cache_sim_new_fresh 8 2 64 "L2" "lru"); [apply geometry_8_2_64|reflexivity..].
Qed.

Lemma next_cacheline_last_set_witness :
  32 <= 64 /\ 0 < 4 < 2 ^ 32 /\ idx (mk_addr true false 0 3) = 4 - 1 /\
  tag (next_cacheline 64 64 (mk_addr true false 0 3) 4) = wrap 64 (0 + 1) /\
  idx (next_cacheline 64 64 (mk_addr true false 0 3) 4) = 4.
Proof.
  split; [lia|]. split; [lia|]. split; [reflexivity|].
  apply (next_cacheline_last_set 64 64 (mk_addr true false 0 3) 4); [lia|lia|reflexivity].
Defined.

Lemma access_miss_forwarding_witness :
  exists (c : cache_sim_t (P := round_robin)) (mh : chain 1),
    let addr := addr_of_raw 64 64 256 (wrap 32 (sets c)) (wrap 32 (linesz c)) in
    let s32 := wrap 32 (sets c) in
    let l32 := wrap 32 (linesz c) in
    access 64 64 2 (l1_new, (l2_new, tt)) 0 8 true = Done (c, mh) /\
    wf_cache c /\ all_levels good 1 mh /\
    check_tag c addr = Done (-1) /\ -1 < 0 /\
    exists p row victim mh1 mh2,
      let way := (policy_next p (idx addr)).1 in
      let p1 := (policy_next p (idx addr)).2 in
      let wb := valid victim && dirty victim in
      wb = true /\
      policy c = Some p /\
      tags_at c (idx addr) way = Done victim /\
      tags c !! Z.to_nat (idx addr) = Some row /\
      (if wb then access 64 64 1 mh (to_uint64 64 victim s32 l32) (linesz c) true
       else Done mh) = Done mh1 /\
      access 64 64 1 mh1 (to_uint64 64 addr s32 l32) (linesz c) false = Done mh2 /\
      all_levels good 1 mh2 /\
      access 64 64 2 (c, mh) 256 8 false =
        Done (mk_cache (sets c) (ways c) (linesz c)
                (<[Z.to_nat (idx addr) :=
                     <[Z.to_nat way := mk_addr true false (tag addr) (idx addr)]> row]>
                   (tags c))
                (perf_counter c ++ [PerfAccess false 8; PerfMiss false]
                   ++ (if wb then [PerfWriteback] else []))
                (name c) (Some (policy_insert p1 (idx addr) way)),
              mh2).
Proof.
  eexists _, _. cbv zeta.
  split; [vm_compute; reflexivity|].
  match goal with |- wf_cache ?c /\ all_levels good 1 ?mh /\ _ =>
    assert (Hh : all_levels good 2 (c, mh)) end.
  { apply (reachable_good 64 64).
    apply (reach_access 64 64 2 (l1_new, (l2_new, tt)) 0 8 true);
      [apply reach_fresh; split; [apply l1_fresh|split; [apply l2_fresh|exact I]]|].
    vm_compute; reflexivity. }
  destruct Hh as [[Hc _] Hmh]. cbn [fst snd] in Hc, Hmh.
  split; [exact Hc|]. split; [exact Hmh|].
  split; [vm_compute; reflexivity|]. split; [lia|].
  destruct (access_miss_forwarding 64 64 1 _ _ 256 8 false (-1) Hc Hmh)
    as (p & row & victim & mh1 & mh2 & Hp & Hv & Hrow & Hwb & Hfill & Hg & Hacc);
    [vm_compute; reflexivity|lia|].
  exists p, row, victim, mh1, mh2. cbv zeta.
  split; [|split; [exact Hp|]; split; [exact Hv|]; split; [exact Hrow|];
            split; [exact Hwb|]; split; [exact Hfill|]; split; [exact Hg|exact Hacc]].
  injection Hp as <-. vm_compute in Hv. injection Hv as <-. reflexivity.
Defined.

Lemma hit_after_cold_miss_witness :
  let c := l1_new in
  let mh : chain 1 := (l2_new, tt) in
  let addr := addr_of_raw 64 64 128 (wrap 32 4) (wrap 32 64) in
  fresh c /\ all_levels good 1 mh /\
  addr_of_raw 64 64 136 (wrap 32 4) (wrap 32 64) = addr /\
  exists c1 mh1 c2 p1 w row e,
    access 64 64 2 (c, mh) 128 8 false = Done (c1, mh1) /\
    perf_counter c1 = [PerfAccess false 8; PerfMiss false] /\
    access 64 64 2 (c1, mh1) 136 4 true = Done (c2, mh1) /\
    perf_counter c2 = perf_counter c1 ++ [PerfAccess true 4] /\
    policy c1 = Some p1 /\ policy c2 = Some (policy_update p1 addr w) /\
    check_tag c1 addr = Done w /\ 0 <= w /\
    tags c1 !! Z.to_nat (idx addr) = Some row /\ row !! Z.to_nat w = Some e /\
    tags c2 = <[Z.to_nat (idx addr) := <[Z.to_nat w := set_dirty e]> row]> (tags c1).
Proof.
  intros c mh addr.
  assert (Hmh : all_levels good 1 mh).
  { split; [apply fresh_good, l2_fresh|exact I]. }
  split; [apply l1_fresh|]. split; [exact Hmh|]. split; [reflexivity|].
  apply (hit_after_cold_miss 64 64 1 c mh 128 8 136 4 true (proj2 l1_fresh) Hmh). reflexivity.
Defined.

Lemma clean_invalidate_idempotent_witness :
  exists h h1 : chain (P := round_robin) 1,
    access 64 64 1 (l1_new, tt) 0 8 true = Done h /\
    all_levels good 1 h /\
    clean_invalidate 64 64 1 h 0 64 true true = Done h1 /\
    h1.1 <> h.1 /\
    clean_invalidate 64 64 1 h1 0 64 true true = Done h1.
Proof.
  eexists _, _.
  split; [vm_compute; reflexivity|].
  match goal with |- all_levels good 1 ?h /\ _ =>
    assert (Hh : all_levels good 1 h) end.
  { apply (reachable_good 64 64).
    apply (reach_access 64 64 1 (l1_new, tt) 0 8 true);
      [apply reach_fresh; split; [apply l1_fresh|exact I]|].
    vm_compute; reflexivity. }
  split; [exact Hh|].
  split; [vm_compute; reflexivity|]. split; [discriminate|].
  eapply (clean_invalidate_idempotent 64 64 1 _ _ 0 64 Hh).
  vm_compute; reflexivity.
Defined.

Lemma no_duplicate_tags_witness :
  exists h1 h : chain (P := round_robin) 2,
    access 64 64 2 (l1_new, (l2_new, tt)) 0 8 true = Done h1 /\
    access 64 64 2 h1 512 8 false = Done h /\
    tags h.2.1 !! 0%nat = Some [mk_addr true true 0 0; mk_addr true false 1 0] /\
    reachable 64 64 2 h /\
    all_levels no_dup 2 h /\
    all_levels (fun c => forall a row i j ei ej,
      tags c !! Z.to_nat (idx a) = Some row ->
      row !! i = Some ei -> addr_eq ei a = true ->
      row !! j = Some ej -> addr_eq ej a = true -> i = j) 2 h /\
    all_levels (fun c => forall raw victim c',
      let addr := addr_of_raw 64 64 raw (wrap 32 (sets c)) (wrap 32 (linesz c)) in
      check_tag c addr = Done (-1) ->
      victimize c addr = Done (victim, c') ->
      exists p, policy c = Some p /\
        check_tag c' addr = Done (policy_next p (idx addr)).1) 2 h.
Proof.
  eexists _, _. split; [vm_compute; reflexivity|].
  split; [vm_compute; reflexivity|].
  split; [reflexivity|].
  match goal with |- reachable 64 64 2 ?h /\ _ =>
    assert (Hr : reachable 64 64 2 h) end.
  { eapply (reach_access 64 64 2 _ 512 8 false);
      [apply (reach_access 64 64 2 (l1_new, (l2_new, tt)) 0 8 true);
         [apply reach_fresh; split; [apply l1_fresh|split; [apply l2_fresh|exact I]]
         |vm_compute; reflexivity]
      |vm_compute; reflexivity]. }
  split; [exact Hr|]. exact (no_duplicate_tags 64 64 2 _ Hr).
Defined.

(** ** Instances of the further properties *)

Lemma l1_good : good l1_new.
Proof. apply fresh_good, l1_fresh. Qed.

(** The first level after the store [access(64, 8, true)]. *)
Lemma l1_after_store :
  exists c1 : cache_sim_t (P := round_robin),
    access 64 64 1 (l1_new, tt) 64 8 true = Done (c1, tt) /\
    reachable 64 64 1 (c1, tt) /\ good c1 /\
    tags_at c1 1 0 = Done (mk_addr true true 0 1).
Proof.
  eexists. split; [vm_compute; reflexivity|].
  match goal with |- reachable 64 64 1 ?h /\ _ =>
    assert (Hr : reachable 64 64 1 h) end.
  { apply (reach_access 64 64 1 (l1_new, tt) 64 8 true);
      [apply reach_fresh; split; [apply l1_fresh|exact I]|].
    vm_compute; reflexivity. }
  split; [exact Hr|]. split; [apply (reachable_good 64 64 1 _ Hr)|reflexivity].
Qed.

Lemma recompose_is_line_base_witness :
  32 <= 64 /\ is_pow2 4 /\ 4 < 2 ^ 32 /\ is_pow2 64 /\ 64 < 2 ^ 32 /\
  0 <= 200 < 2 ^ 32 * 64 /\
  to_uint64 64 (addr_of_raw 64 64 200 4 64) 4 64 = 200 - 200 mod 64.
Proof.
  assert (H4 : is_pow2 4) by pow2 2. assert (H64 : is_pow2 64) by pow2 6.
  repeat (split; [done || lia|]).
  apply (recompose_is_line_base 64 64 200 4 64); (done || lia).
Defined.

Lemma same_decomposition_iff_witness :
  32 <= 64 /\ is_pow2 4 /\ 4 < 2 ^ 32 /\ is_pow2 64 /\
  (addr_of_raw 64 64 200 4 64 = addr_of_raw 64 64 (192 + 2 ^ 38) 4 64 <->
   (200 / 64) mod 2 ^ 32 = ((192 + 2 ^ 38) / 64) mod 2 ^ 32).
Proof.
  assert (H4 : is_pow2 4) by pow2 2. assert (H64 : is_pow2 64) by pow2 6.
  repeat (split; [done || lia|]).
  apply (same_decomposition_iff 64 64 200 (192 + 2 ^ 38) 4 64); (done || lia).
Defined.

Lemma decomposed_fields_in_range_witness :
  is_pow2 4 /\ 4 < 2 ^ 32 /\
  let a := addr_of_raw 64 64 (2 ^ 40 + 200) 4 64 in
  0 <= idx a < 4 /\ 0 <= tag a /\ tag a * 4 + idx a < 2 ^ 32.
Proof.
  assert (H4 : is_pow2 4) by pow2 2.
  split; [done|]. split; [lia|].
  apply (decomposed_fields_in_range 64 64 (2 ^ 40 + 200) 4 64); (done || lia).
Defined.

Lemma next_cacheline_advances_one_line_witness :
  let a := mk_addr true false 5 2 in
  32 <= 64 /\ is_pow2 4 /\ 4 < 2 ^ 32 /\ is_pow2 64 /\ 64 < 2 ^ 32 /\
  0 <= tag a /\ 0 <= idx a < 4 - 1 /\ tag a * 4 + idx a + 1 < 2 ^ 32 /\
  to_uint64 64 (next_cacheline 64 64 a 4) 4 64 = to_uint64 64 a 4 64 + 64.
Proof.
  intros a.
  assert (H4 : is_pow2 4) by pow2 2. assert (H64 : is_pow2 64) by pow2 6.
  repeat (split; [done || (cbn; lia)|]).
  apply (next_cacheline_advances_one_line 64 64 a 4 64); (done || (cbn; lia)).
Defined.

Lemma init_checks_geometry_witness :
  0 <= 4 /\ 0 <= 64 /\
  (is_pow2 4 /\ is_pow2 64 /\ 8 <= 64 ->
   exists c : cache_sim_t (P := round_robin), init 4 2 64 "L1" "lru" = Engine c /\
     sets c = 4 /\ ways c = 2 /\ linesz c = 64 /\
     length (tags c) = Z.to_nat 4 /\
     Forall (fun row => row = replicate (Z.to_nat 2) addr_default) (tags c) /\
     perf_counter c = []) /\
  (~ (is_pow2 4 /\ is_pow2 64 /\ 8 <= 64) ->
   init (P := round_robin) 4 2 64 "L1" "lru" = Usage).
Proof.
  split; [lia|]. split; [lia|].
  apply (init_checks_geometry 4 2 64 "L1" "lru"); lia.
Defined.

Lemma cache_sim_of_config_accepts_witness :
  exists c : cache_sim_t (P := round_robin),
    cache_sim_of_config "4:2:64:lru" "L1" = Engine c /\
    (exists s1 s2 s3 pol,
       "4:2:64:lru" = s1 +:+ ":" +:+ s2 +:+ ":" +:+ s3 +:+ ":" +:+ pol /\
       strchr s1 ":" = None /\ strchr s2 ":" = None /\ strchr s3 ":" = None /\
       policy_is_valid pol = true /\
       sets c = wrap 64 (atoi s1) /\ ways c = wrap 64 (atoi s2) /\
       linesz c = wrap 64 (atoi s3)) /\
    is_pow2 (sets c) /\ is_pow2 (linesz c) /\ 8 <= linesz c /\
    (exists p, policy c = Some p) /\ tags_shape c.
Proof.
  eexists. split; [reflexivity|].
  apply (cache_sim_of_config_accepts "4:2:64:lru" "L1"). reflexivity.
Defined.

(** Numbers beyond [int] in a configuration string: [atoi] yields the
    low 32 bits of the number, read as a signed number.  The line size
    [2^31] becomes [- 2^31], as a [size_t] no power of two, and the
    string is refused; the line size [2^32 + 64] becomes 64 and the
    string is accepted; a number of sets beyond [long] becomes -1 and
    the string is refused. *)
Example cache_sim_of_config_beyond_int :
  atoi "2147483648:" = - 2 ^ 31 /\ atoi "4294967296:" = 0 /\
  atoi "4294967360:" = 64 /\ atoi "9223372036854775808:" = -1 /\
  cache_sim_of_config (P := round_robin) "4:2:2147483648:lru" "L1" = Usage /\
  cache_sim_of_config (P := round_robin) "9223372036854775808:2:64:lru" "L1" = Usage /\
  exists c : cache_sim_t (P := round_robin),
    cache_sim_of_config "4:2:4294967360:lru" "L1" = Engine c /\
    sets c = 4 /\ ways c = 2 /\ linesz c = 64.
Proof.
  repeat (split; [reflexivity|]). eexists. repeat (split; [reflexivity|]). reflexivity.
Qed.

Lemma fresh_cache_misses_witness :
  fresh l1_new /\ 0 <= idx (mk_addr true false 7 3) < sets l1_new /\
  check_tag l1_new (mk_addr true false 7 3) = Done (-1).
Proof.
  split; [apply l1_fresh|]. split; [cbn; lia|].
  apply (fresh_cache_misses l1_new (mk_addr true false 7 3)); [apply l1_fresh|cbn; lia].
Defined.

Lemma access_never_faults_witness :
  exists c1 : cache_sim_t (P := round_robin),
    reachable 64 64 1 (c1, tt) /\
    exists h', access 64 64 1 (c1, tt) 320 4 false = Done h' /\
      reachable 64 64 1 h' /\ all_levels wf_cache 1 h'.
Proof.
  destruct l1_after_store as (c1 & _ & Hr & _).
  exists c1. split; [exact Hr|].
  apply (access_never_faults 64 64 1 (c1, tt) 320 4 false Hr).
Defined.

Lemma access_leaves_line_present_witness :
  exists (c1 : cache_sim_t (P := round_robin)) (mh1 : chain (P := round_robin) 0),
    let addr := addr_of_raw 64 64 64 (wrap 32 4) (wrap 32 64) in
    good l1_new /\ access 64 64 1 (l1_new, tt) 64 8 true = Done (c1, mh1) /\
    exists w e,
      check_tag c1 addr = Done w /\ 0 <= w /\
      tags_at c1 (idx addr) w = Done e /\
      valid e = true /\ tag e = tag addr /\ (true = true -> dirty e = true).
Proof.
  eexists _, _. cbv zeta. split; [apply l1_good|].
  split; [vm_compute; reflexivity|].
  eapply (access_leaves_line_present 64 64 0 l1_new tt 64 8 true);
    [apply l1_good|vm_compute; reflexivity].
Defined.

Lemma access_other_sets_untouched_witness :
  exists (c1 : cache_sim_t (P := round_robin)) (mh1 : chain (P := round_robin) 0),
    let addr := addr_of_raw 64 64 64 (wrap 32 4) (wrap 32 64) in
    good l1_new /\ access 64 64 1 (l1_new, tt) 64 8 true = Done (c1, mh1) /\
    sets c1 = 4 /\ ways c1 = 1 /\ linesz c1 = 64 /\ name c1 = "L1" /\
    (forall j, j <> Z.to_nat (idx addr) -> tags c1 !! j = tags l1_new !! j) /\
    exists row row1 w,
      tags l1_new !! Z.to_nat (idx addr) = Some row /\
      tags c1 !! Z.to_nat (idx addr) = Some row1 /\
      forall k, k <> w -> row1 !! k = row !! k.
Proof.
  eexists _, _. cbv zeta. split; [apply l1_good|].
  split; [vm_compute; reflexivity|].
  eapply (access_other_sets_untouched 64 64 0 l1_new tt 64 8 true);
    [apply l1_good|vm_compute; reflexivity].
Defined.

Lemma access_counts_witness :
  exists (c1 : cache_sim_t (P := round_robin)) (mh1 : chain (P := round_robin) 0),
    let addr := addr_of_raw 64 64 64 (wrap 32 4) (wrap 32 64) in
    good l1_new /\ access 64 64 1 (l1_new, tt) 64 8 true = Done (c1, mh1) /\
    exists h,
      check_tag l1_new addr = Done h /\
      (0 <= h ->
       perf_counter c1 = perf_counter l1_new ++ [PerfAccess true 8] /\ mh1 = tt) /\
      (h < 0 ->
       exists p victim,
         policy l1_new = Some p /\
         tags_at l1_new (idx addr) (policy_next p (idx addr)).1 = Done victim /\
         perf_counter c1 =
           perf_counter l1_new ++ [PerfAccess true 8; PerfMiss true]
             ++ (if valid victim && dirty victim then [PerfWriteback] else [])).
Proof.
  eexists _, _. cbv zeta. split; [apply l1_good|].
  split; [vm_compute; reflexivity|].
  eapply (access_counts 64 64 0 l1_new tt 64 8 true);
    [apply l1_good|vm_compute; reflexivity].
Defined.

Lemma clean_invalidate_empty_range_witness :
  0 <= 4096 < 2 ^ 64 /\
  clean_invalidate 64 64 2 (l1_new, (l2_new, tt)) 4096 0 true true =
  Done (l1_new, (l2_new, tt)).
Proof.
  split; [lia|].
  apply (clean_invalidate_empty_range 64 64 2 (l1_new, (l2_new, tt)) 4096 true true). lia.
Defined.

Lemma clean_invalidate_nothing_requested_witness :
  exists (c1 : cache_sim_t (P := round_robin)) (h' : chain (P := round_robin) 1),
    access 64 64 1 (l1_new, tt) 64 8 true = Done (c1, tt) /\
    clean_invalidate 64 64 1 (c1, tt) 0 192 false false = Done h' /\
    h' = (c1, tt).
Proof.
  eexists _, _. split; [vm_compute; reflexivity|].
  split; [vm_compute; reflexivity|].
  eapply (clean_invalidate_nothing_requested 64 64 1 _ _ 0 192).
  vm_compute; reflexivity.
Defined.

Lemma clean_invalidate_only_clears_flags_witness :
  exists (c1 : cache_sim_t (P := round_robin)) (h' : chain (P := round_robin) 1),
    access 64 64 1 (l1_new, tt) 64 8 true = Done (c1, tt) /\
    clean_invalidate 64 64 1 (c1, tt) 0 192 true true = Done h' /\
    h' <> (c1, tt) /\
    levels_rel (fun c c' =>
      sets c' = sets c /\ ways c' = ways c /\ linesz c' = linesz c /\
      name c' = name c /\ policy c' = policy c /\
      Forall2 (Forall2 loses_flags) (tags c') (tags c)) 1 (c1, tt) h'.
Proof.
  eexists _, _. split; [vm_compute; reflexivity|].
  split; [vm_compute; reflexivity|]. split; [discriminate|].
  eapply (clean_invalidate_only_clears_flags 64 64 1 _ _ 0 192 true true).
  vm_compute; reflexivity.
Defined.

Lemma clean_invalidate_counts_pairs_witness :
  exists (c1 : cache_sim_t (P := round_robin)) (h' : chain (P := round_robin) 1),
    access 64 64 1 (l1_new, tt) 64 8 true = Done (c1, tt) /\
    clean_invalidate 64 64 1 (c1, tt) 0 192 true true = Done h' /\
    perf_counter h'.1 = perf_counter c1 ++ [PerfWriteback; PerfClean] /\
    levels_rel (fun c c' =>
      exists k : nat,
        perf_counter c' =
          perf_counter c ++ concat (replicate k [PerfWriteback; PerfClean]) /\
        (true = false -> perf_counter c' = perf_counter c)) 1 (c1, tt) h'.
Proof.
  eexists _, _. split; [vm_compute; reflexivity|].
  split; [vm_compute; reflexivity|]. split; [reflexivity|].
  eapply (clean_invalidate_counts_pairs 64 64 1 _ _ 0 192 true true).
  vm_compute; reflexivity.
Defined.

Lemma clean_invalidate_within_tag_witness :
  exists c1 : cache_sim_t (P := round_robin),
    let cur_addr := addr_of_raw 64 64 0 (wrap 32 (sets c1)) (wrap 32 (linesz c1)) in
    let end_addr := addr_of_raw 64 64 (wrap 64 (0 + 192)) (wrap 32 (sets c1)) (wrap 32 (linesz c1)) in
    access 64 64 1 (l1_new, tt) 64 8 true = Done (c1, tt) /\
    32 <= 64 /\ good c1 /\
    tag cur_addr = tag end_addr /\ idx cur_addr <= idx end_addr /\
    clean_invalidate (P := round_robin) 64 64 0 tt 0 192 true true = Done tt /\
    exists c',
      clean_invalidate 64 64 1 (c1, tt) 0 192 true true = Done (c', tt) /\
      good c' /\
      (forall j, ~ (Z.to_nat (idx cur_addr) <= j < Z.to_nat (idx end_addr))%nat ->
         tags c' !! j = tags c1 !! j) /\
      (true = true -> forall a,
         valid a = true -> tag a = tag cur_addr ->
         idx cur_addr <= idx a < idx end_addr ->
         check_tag c' a = Done (-1)) /\
      (true = true -> forall a w e,
         valid a = true -> tag a = tag cur_addr ->
         idx cur_addr <= idx a < idx end_addr ->
         check_tag c' a = Done w -> 0 <= w -> tags_at c' (idx a) w = Done e ->
         dirty e = false).
Proof.
  eexists. cbv zeta. split; [vm_compute; reflexivity|].
  match goal with |- _ /\ good ?c /\ _ => assert (Hc1 : good c) end.
  { apply (reachable_good 64 64 1 (_, tt)).
    apply (reach_access 64 64 1 (l1_new, tt) 64 8 true);
      [apply reach_fresh; split; [apply l1_fresh|exact I]|].
    vm_compute; reflexivity. }
  split; [lia|]. split; [exact Hc1|].
  split; [reflexivity|]. split; [vm_compute; discriminate|]. split; [reflexivity|].
  apply (clean_invalidate_within_tag 64 64 0 _ tt tt 0 192 true true);
    [lia|exact Hc1|reflexivity|vm_compute; discriminate|reflexivity].
Defined.
